(** * Immobile: the rule validation engine of the options page

    A shallow embedding of the pure part of [code/js/options.js]
    ([hasValue], [hasChars], [getButtonIndex], [calcTimeToReadString],
    [getDomain], [getSubdomainDifference], [isValidInput], [storeRule])
    together with the fragment of JavaScript these functions rely on:
    strings as sequences of UTF-16 code units, the regular expressions
    written in the file, [String.prototype.replace] with a string pattern,
    [parseInt], and the exceptions raised by property access on [null].

    The functions that act on the page ([storeRule], [deleteRule],
    [addBtnListener], [buildRulesTable], [deleteRulesTable],
    [updateRulesTable], the click listeners of the add buttons,
    [showNotificationPopup], [hideNotificationPopup]) are embedded as
    transitions of a state that holds what they read and write: the stored
    list, the messages sent, the rules table and the popup. *)

From Stdlib Require Import Ascii.
From stdpp Require Import gmap strings list.

Local Open Scope Z_scope.

(** ** JavaScript values *)

Module Js.

(** A JavaScript string is a finite sequence of 16-bit code units. *)
Abbreviation jsstring := (list N).

(** String literals of the source, written as Rocq strings (one code unit
    per character: the literals of options.js are ASCII). *)
Definition lit (s : string) : jsstring :=
  N_of_ascii <$> String.list_ascii_of_string s.

(** Primitive values stored in the fields of a rule object. *)
Inductive val :=
| VUndefined
| VNull
| VBool (b : bool)
| VNum (n : Z)
| VStr (s : jsstring).

#[export] Instance val_eq_dec : EqDecision val.
Proof. solve_decision. Defined.

(** [a === b] on primitive values: same type and same value. *)
Definition strict_eq (a b : val) : bool := bool_decide (a = b).

(** The Numbers that [parseInt] returns.  JavaScript numbers are IEEE
    doubles: [Int n] is the finite Number whose value is the integer [n],
    [Infinity negative] is one of the two infinities.  [+0] and [-0] are
    both [Int 0]: no operation of the file tells them apart. *)
Inductive number :=
| NaN
| Int (n : Z)
| Infinity (negative : bool).

(** The double nearest to a non-negative integer, ties to the even
    significand, as an integer.  A double has 53 significant bits: an
    integer below 2^53 is kept, a longer one loses its low bits. *)
Definition roundTiesToEven (n : Z) : Z :=
  let e := Z.log2 n - 52 in
  if e <=? 0 then n
  else
    let q := Z.shiftr n e in
    let r := Z.land n (Z.ones e) in
    let half := Z.shiftl 1 (e - 1) in
    let q := if (half <? r) || ((r =? half) && Z.odd q) then q + 1 else q in
    Z.shiftl q e.

(** The Number for a mathematical integer: what is rounded to 2^1024 or
    more is an infinity (the largest finite double is 2^1024 - 2^971). *)
Definition toNumber (n : Z) : number :=
  let rounded := roundTiesToEven (Z.abs n) in
  if 2 ^ 1024 <=? rounded then Infinity (n <? 0)
  else Int (Z.sgn n * rounded).

(** Exceptions.  [TypeError] is what property access on [null] or
    [undefined] throws. *)
Inductive exn :=
| TypeError
| RangeError.

(** How the evaluation of an expression or a call ends: with a value, with
    an exception, or with [undefined] at a place where the embedding
    carries a string (no path of options.js reaches it, see
    [getDomain_total]). *)
Inductive completion (A : Type) :=
| Normal (a : A)
| Throw (e : exn)
| Undef.
Arguments Normal {A} a.
Arguments Throw {A} e.
Arguments Undef {A}.

#[export] Instance completion_ret : MRet completion := λ A a, Normal a.
#[export] Instance completion_bind : MBind completion := λ A B f m,
  match m with
  | Normal a => f a
  | Throw e => Throw e
  | Undef => Undef
  end.

(** *** Character classes *)

(** LineTerminator: LF, CR, LS, PS. *)
Definition isLineTerminator (c : N) : bool :=
  bool_decide (c ∈ [0x0A; 0x0D; 0x2028; 0x2029]%N).

(** WhiteSpace or LineTerminator: what [\s] matches and [trim] strips. *)
Definition isWhiteSpace (c : N) : bool :=
  bool_decide (c ∈ [0x09; 0x0B; 0x0C; 0x20; 0xA0; 0x1680; 0x202F; 0x205F;
                    0x3000; 0xFEFF]%N)
  || ((0x2000 <=? c)%N && (c <=? 0x200A)%N)
  || isLineTerminator c.

(** ** Regular expressions

    A backtracking matcher for the constructs used by options.js:
    literal characters, [.], [\S], a range class, sequencing, capturing
    groups and the quantifiers [+] and [+?].  The [i] flag carried by the
    two expressions of [getDomain] only affects letters and none of them
    contains one. *)

Inductive regex :=
| Chr (c : N)                 (* a literal character *)
| Dot                         (* .  : anything but a line terminator *)
| NonSpace                    (* \S *)
| Range (lo hi : N)           (* [lo-hi] *)
| Seq (r1 r2 : regex)
| Group (n : nat) (r : regex) (* the n-th capturing group *)
| Plus (r : regex)            (* r+  (greedy) *)
| PlusLazy (r : regex).       (* r+? (lazy) *)

(** Captures: group number to the text it matched last. *)
Abbreviation captures := (gmap nat jsstring).

(** One character of class [p]. *)
Definition one {R} (p : N → bool) (s : jsstring) (caps : captures)
    (k : jsstring → captures → option R) : option R :=
  match s with
  | c :: s' => if p c then k s' caps else None
  | [] => None
  end.

(** A continuation: what is left of the input and the captures so far. *)
Abbreviation cont R := (jsstring → captures → option R).

(** [r+] for a body [body]: iterate again, and continue with [k] only when
    that fails.  An iteration that consumes nothing ends the repetition
    (every quantified body of options.js consumes a character); [fuel]
    bounds the number of iterations and [S (length s)] is enough. *)
Fixpoint greedy {R} (body : jsstring → captures → cont R → option R)
    (k : cont R) (fuel : nat) (s : jsstring) (caps : captures) : option R :=
  match fuel with
  | O => None
  | S fuel' =>
      body s caps (λ s1 caps1,
        if bool_decide (length s1 < length s)%nat then
          match greedy body k fuel' s1 caps1 with
          | Some x => Some x
          | None => k s1 caps1
          end
        else k s1 caps1)
  end.

(** [r+?]: continue with [k], and iterate again only when that fails. *)
Fixpoint lazy {R} (body : jsstring → captures → cont R → option R)
    (k : cont R) (fuel : nat) (s : jsstring) (caps : captures) : option R :=
  match fuel with
  | O => None
  | S fuel' =>
      body s caps (λ s1 caps1,
        match k s1 caps1 with
        | Some x => Some x
        | None =>
            if bool_decide (length s1 < length s)%nat
            then lazy body k fuel' s1 caps1 else None
        end)
  end.

(** [m r s caps k]: match [r] at the front of [s], then continue with [k] on
    what is left; [None] is failure, on which the caller backtracks in the
    order of ECMAScript. *)
Fixpoint m {R} (r : regex) (s : jsstring) (caps : captures) (k : cont R)
    : option R :=
  match r with
  | Chr c => one (N.eqb c) s caps k
  | Dot => one (λ c, negb (isLineTerminator c)) s caps k
  | NonSpace => one (λ c, negb (isWhiteSpace c)) s caps k
  | Range lo hi => one (λ c, (lo <=? c)%N && (c <=? hi)%N) s caps k
  | Seq r1 r2 => m r1 s caps (λ s1 caps1, m r2 s1 caps1 k)
  | Group n r1 =>
      m r1 s caps (λ s1 caps1,
        k s1 (<[n := take (length s - length s1)%nat s]> caps1))
  | Plus r1 => greedy (m r1) k (S (length s)) s caps
  | PlusLazy r1 => lazy (m r1) k (S (length s)) s caps
  end.

(** The array returned by [exec] and [match]: element 0 is the matched
    text, element [n] the text of group [n]. *)
Record MatchArray := {
  matched : jsstring;
  groups : captures
}.

(** [re.exec(s)] without the [g] flag: the leftmost match, or [null]. *)
Fixpoint exec (r : regex) (s : jsstring) : option MatchArray :=
  match m r s ∅ (λ s1 caps1, Some (s1, caps1)) with
  | Some (s1, caps1) =>
      Some {| matched := take (length s - length s1)%nat s; groups := caps1 |}
  | None =>
      match s with
      | [] => None
      | _ :: s' => exec r s'
      end
  end.

(** [re.test(s)]. *)
Definition test (r : regex) (s : jsstring) : bool :=
  bool_decide (is_Some (exec r s)).

(** [a[i]] for the result [a] of [exec]: a [TypeError] on [null]. *)
Definition index (a : option MatchArray) (i : nat) : completion jsstring :=
  match a with
  | None => Throw TypeError
  | Some a =>
      match i with
      | O => Normal (matched a)
      | _ => match groups a !! i with
             | Some s => Normal s
             | None => Undef
             end
      end
  end.

(** ** Strings, numbers and arrays *)

Fixpoint takeWhile (p : N → bool) (s : jsstring) : jsstring :=
  match s with
  | c :: s' => if p c then c :: takeWhile p s' else []
  | [] => []
  end.

Fixpoint dropWhile (p : N → bool) (s : jsstring) : jsstring :=
  match s with
  | c :: s' => if p c then dropWhile p s' else s
  | [] => []
  end.

(** [s.startsWith(pat)]. *)
Fixpoint startsWith (pat s : jsstring) : bool :=
  match pat, s with
  | [], _ => true
  | p :: pat', c :: s' => (p =? c)%N && startsWith pat' s'
  | _ :: _, [] => false
  end.

(** [s.indexOf(pat)]: the position of the first occurrence of [pat] in [s];
    [None] stands for -1. *)
Fixpoint indexOf (pat s : jsstring) : option nat :=
  if startsWith pat s then Some O
  else match s with
       | [] => None
       | _ :: s' => S <$> indexOf pat s'
       end.

(** [s.replace(pat, rep)] for a string pattern [pat]: only the first
    occurrence is replaced.  [rep] is taken literally (the call of
    options.js passes the empty string, which has no [$] pattern). *)
Definition replace (s pat rep : jsstring) : jsstring :=
  match indexOf pat s with
  | Some pos => take pos s ++ rep ++ drop (pos + length pat) s
  | None => s
  end.

(** [s.charAt(i)]: a string of one code unit, empty out of range. *)
Definition charAt (s : jsstring) (i : nat) : jsstring :=
  match s !! i with
  | Some c => [c]
  | None => []
  end.

(** [s.trim()]. *)
Definition trim (s : jsstring) : jsstring :=
  reverse (dropWhile isWhiteSpace (reverse (dropWhile isWhiteSpace s))).

(** [s.match(re)] for a regular expression without the [g] flag. *)
Definition String_match (s : jsstring) (re : regex) : option MatchArray :=
  exec re s.

Definition isDigit (c : N) : bool := (48 <=? c)%N && (c <=? 57)%N.

(** The mathematical integer denoted by a sequence of decimal digits. *)
Definition mathInt (digits : jsstring) : Z :=
  foldl (λ acc d, 10 * acc + (Z.of_N d - 48)) 0 digits.

(** [parseInt(s, 10)]: leading white space is skipped, then an optional
    sign, then the longest prefix of decimal digits; [NaN] if it is empty,
    else the Number for the integer the digits denote.  (ECMAScript lets
    an implementation read the digits after the 20th as zeros; the
    embedding reads all of them.) *)
Definition parseInt (s : jsstring) : number :=
  let s1 := dropWhile isWhiteSpace s in
  let '(sign, s2) :=
    match s1 with
    | 45%N :: s' => (-1, s')
    | 43%N :: s' => (1, s')
    | _ => (1, s1)
    end in
  match takeWhile isDigit s2 with
  | [] => NaN
  | digits => toNumber (sign * mathInt digits)
  end.

(** [a.some(f)]. *)
Fixpoint some {A} (f : A → bool) (a : list A) : bool :=
  match a with
  | [] => false
  | x :: a' => f x || some f a'
  end.

End Js.

(** ** options.js *)

Module Options.
Import Js.

(** A rule is a plain data object, [{src: .., dest: .., regex: ..}]; its own
    properties are the keys of the map.  (A data property that would shadow
    an inherited method such as [hasOwnProperty] is outside the model.) *)
Abbreviation Rule := (gmap string val).

(** The globals of the file: the localized texts and the two symbols. *)
Inductive Text :=
| CURRENT_RULES_TEXT
| NO_RULES_TEXT
| NO_EMPTY_TEXT
| NO_DUPS_TEXT
| NO_CYCLES_TEXT
| MISMATCHED_SUBDOMAINS_TEXT.

Inductive Symbol :=
| WARNING_SYMBOL
| SUCCESS_SYMBOL.

Inductive Color :=
| red
| green.

(** A call [showNotificationPopup(symbol, text, color, delay, callback)].
    Every call of [isValidInput] passes [calcTimeToReadString(text)] as
    delay and [hideNotificationPopup] as callback, so the record keeps the
    first three arguments. *)
Record Popup := showNotificationPopup {
  symbol : Symbol;
  text : Text;
  color : Color
}.

#[export] Instance Text_eq_dec : EqDecision Text.
Proof. solve_decision. Defined.

(** The regular expressions of the file. *)
Definition chr (a : ascii) : N := N_of_ascii a.

(** [/\S/] *)
Definition re_nonspace : regex := NonSpace.
(** [/([0-9])+/] *)
Definition re_digits : regex := Plus (Group 1 (Range (chr "0") (chr "9"))).
(** [/\/\/(.+)/i] *)
Definition re_protocol : regex :=
  Seq (Chr (chr "/")) (Seq (Chr (chr "/")) (Group 1 (Plus Dot))).
(** [/(.+?)\//i] *)
Definition re_path : regex :=
  Seq (Group 1 (PlusLazy Dot)) (Chr (chr "/")).

Definition hasValue (obj : Rule) (key : string) (value : val) : bool :=
  bool_decide (is_Some (obj !! key))
  && strict_eq (default VUndefined (obj !! key)) value.

Definition hasChars (string : jsstring) : bool :=
  if test re_nonspace string then true else false.

(** The result is a number or [null] ([None]).  The body of [try] throws a
    [TypeError] when [match] returns [null]; any other exception would
    leave the handler and reach [return index] with [index] undefined. *)
Definition getButtonIndex (buttonId : jsstring) : completion (option number) :=
  match digits ← index (String_match buttonId re_digits) 0;
        mret (parseInt digits) with
  | Normal index => Normal (Some index)
  | Throw error =>
      match error with
      | TypeError => Normal None
      | _ => Undef
      end
  | Undef => Undef
  end.

Definition calcTimeToReadString (string : jsstring) : Z :=
  match string with
  | _ :: _ => 500 + 75 * Z.of_nat (length string)
  | [] => 0
  end.

Definition getDomain (url : jsstring) : completion jsstring :=
  let noProtocol := exec re_protocol url in
  noProtocol ← match noProtocol with
               | Some _ => index noProtocol 1
               | None => mret url
               end;
  let noPath := exec re_path noProtocol in
  noPath ← match noPath with
           | Some _ => index noPath 1
           | None => mret url
           end;
  mret noPath.

Definition getSubdomainDifference (source destination : jsstring)
    : completion Z :=
  source ← getDomain source;
  destination ← getDomain destination;
  let '(longer, shorter) :=
    if bool_decide (length source ≤ length destination)%nat
    then (destination, source)
    else (source, destination) in
  let postReplace := replace longer shorter [] in
  if bool_decide (length postReplace = length longer) then mret 0
  else
    let periodCounter :=
      foldl (λ periodCounter i,
               if bool_decide (charAt postReplace i = lit ".")
               then periodCounter + 1 else periodCounter)
            0 (seq 0 (length postReplace)) in
    mret periodCounter.

(** The function returns a boolean and, on the way, calls
    [showNotificationPopup]; the calls are returned next to the result. *)
Definition isValidInput (source destination : jsstring) (rules : list Rule)
    : completion bool * list Popup :=
  if negb (hasChars source) || negb (hasChars destination) then
    (Normal false, [showNotificationPopup WARNING_SYMBOL NO_EMPTY_TEXT red])
  else if some (λ obj, hasValue obj "src" (VStr source)) rules then
    (Normal false, [showNotificationPopup WARNING_SYMBOL NO_DUPS_TEXT red])
  else if some (λ obj, hasValue obj "dest" (VStr source)) rules then
    (Normal false, [showNotificationPopup WARNING_SYMBOL NO_CYCLES_TEXT red])
  else
    match getSubdomainDifference source destination with
    | Normal difference =>
        if bool_decide (0 < difference) then
          (Normal true,
           [showNotificationPopup SUCCESS_SYMBOL MISMATCHED_SUBDOMAINS_TEXT green])
        else (Normal true, [])
    | Throw e => (Throw e, [])
    | Undef => (Undef, [])
    end.

(** The storage callback of [storeRule], as a function of the stored list
    ([None]: nothing stored yet): the list that is stored afterwards. *)
Definition storeRule (source destination : jsstring) (isRegex : bool)
    (redirectionRules : option (list Rule)) : list Rule :=
  let rules := default [] redirectionRules in
  match isValidInput source destination rules with
  | (Normal true, _) =>
      let source := trim source in
      rules ++ [ {[ "src" := VStr source;
                    "dest" := VStr (trim destination);
                    "regex" := VBool isRegex ]} ]
  | _ => rules
  end.

End Options.

(** ** The vocabulary of the specification *)

Module Spec.
Import Js Options.

Inductive Reason :=
| Empty
| DuplicateSource
| Cycle.

(** The outcome of one validation: what [isValidInput] returns together
    with the notification it raises. *)
Inductive ValidationOutcome :=
| Accepted
| AcceptedWithAdvisory (delta : Z)
| Rejected (reason : Reason).

(** [validate] reads the outcome off a call of [isValidInput]: [false] with
    one of the three warnings is a rejection for that reason, [true] with
    the subdomain notification is an acceptance with advisory (its delta is
    the subdomain difference that triggered the notification), [true] with
    no notification is a plain acceptance. *)
Definition validate (source destination : jsstring) (existing : list Rule)
    : completion ValidationOutcome :=
  match isValidInput source destination existing with
  | (Normal false, [p]) =>
      match text p with
      | NO_EMPTY_TEXT => Normal (Rejected Empty)
      | NO_DUPS_TEXT => Normal (Rejected DuplicateSource)
      | NO_CYCLES_TEXT => Normal (Rejected Cycle)
      | _ => Undef
      end
  | (Normal true, []) => Normal Accepted
  | (Normal true, [p]) =>
      match text p with
      | MISMATCHED_SUBDOMAINS_TEXT =>
          delta ← getSubdomainDifference source destination;
          mret (AcceptedWithAdvisory delta)
      | _ => Undef
      end
  | (Normal _, _) => Undef
  | (Throw e, _) => Throw e
  | (Undef, _) => Undef
  end.

(** [parseTrailingIndex] is the specification's name for [getButtonIndex]. *)
Definition parseTrailingIndex (id : jsstring) : completion (option number) :=
  getButtonIndex id.

(** A string with no non-whitespace character. *)
Definition blank (s : jsstring) : Prop := Forall (λ c, isWhiteSpace c = true) s.

#[export] Instance blank_dec s : Decision (blank s).
Proof. unfold blank. apply _. Defined.

(** Some rule of [rules] has the string [s] in its field [key]. *)
Definition has_field (key : string) (s : jsstring) (rules : list Rule) : Prop :=
  Exists (λ rule : Rule, rule !! key = Some (VStr s)) rules.

#[export] Instance has_field_dec key s rules : Decision (has_field key s rules).
Proof. unfold has_field. apply _. Defined.

(** The checks of the specification, in its order: the first that fails
    decides the outcome. *)
Definition checks (source destination : jsstring) (existing : list Rule)
    (delta : Z) : ValidationOutcome :=
  if decide (blank source ∨ blank destination) then Rejected Empty
  else if decide (has_field "src" source existing) then Rejected DuplicateSource
  else if decide (has_field "dest" source existing) then Rejected Cycle
  else if decide (0 < delta) then AcceptedWithAdvisory delta
  else Accepted.

(** *** Domain normalization as the specification words it *)

(** "If the input contains "//", return everything after the first
    occurrence of "//"; otherwise return the input unchanged." *)
Definition stripProtocol (input : jsstring) : jsstring :=
  match indexOf (lit "//") input with
  | Some i => drop (i + 2) input
  | None => input
  end.

(** "If the input contains a "/", return everything before the first "/";
    otherwise return the input unchanged." *)
Definition stripPath (input : jsstring) : jsstring :=
  match indexOf (lit "/") input with
  | Some i => take i input
  | None => input
  end.

(** *** Domain normalization as the two regular expressions do it *)

(** Everything after the first "//", provided a character follows it. *)
Definition afterProtocol (input : jsstring) : jsstring :=
  match indexOf (lit "//") input with
  | Some i =>
      if bool_decide (i + 2 < length input)%nat then drop (i + 2) input
      else input
  | None => input
  end.

(** Everything before the first "/" that is not the first character. *)
Definition beforePath (input : jsstring) : jsstring :=
  match input with
  | [] => []
  | c :: rest =>
      match indexOf (lit "/") rest with
      | Some i => c :: take i rest
      | None => input
      end
  end.

(** *** The subdomain delta as the specification words it *)

(** "Remove the first literal occurrence of [shorter] from [longer]." *)
Fixpoint removeFirst (shorter longer : jsstring) : jsstring :=
  if startsWith shorter longer then drop (length shorter) longer
  else match longer with
       | [] => []
       | c :: longer' => c :: removeFirst shorter longer'
       end.

(** The number of "." characters of a string. *)
Definition countPeriods (s : jsstring) : Z :=
  Z.of_nat (length (filter (λ c, c = chr ".") s)).

(** "If the removal had no effect (result length unchanged), the delta is 0.
    Otherwise the delta is the count of . characters remaining in the
    residual string after removal." *)
Definition residualDelta (longer shorter : jsstring) : Z :=
  let residual := removeFirst shorter longer in
  if bool_decide (length residual = length longer) then 0
  else countPeriods residual.

(** [longer] and [shorter] are the two normalized strings, [longer] being
    one of greater or equal length. *)
Definition longer_shorter (a b longer shorter : jsstring) : Prop :=
  ((longer = a ∧ shorter = b) ∨ (longer = b ∧ shorter = a))
  ∧ (length shorter ≤ length longer)%nat.

(** *** What the regular expressions of the file find *)

(** The first maximal run of decimal digits of a string. *)
Definition firstDigits (s : jsstring) : jsstring :=
  takeWhile isDigit (dropWhile (λ c, negb (isDigit c)) s).

Definition notLineTerminator (c : N) : bool := negb (isLineTerminator c).

(** Where [(.+?)] stops when matched at the front of [s] and followed by
    [/]: the first "/" after at least one character, unless a line
    terminator comes first.  The result is the input from that "/" on. *)
Fixpoint lazyEnd (s : jsstring) : option jsstring :=
  match s with
  | [] => None
  | c :: s' =>
      if notLineTerminator c then
        match s' with
        | c' :: _ => if (chr "/" =? c')%N then Some s' else lazyEnd s'
        | [] => None
        end
      else None
  end.

(** The match of [/(.+?)\//] in [s]: the leftmost position where
    [lazyEnd] succeeds; the result is the text of the group. *)
Fixpoint findPath (s : jsstring) : option jsstring :=
  match lazyEnd s with
  | Some s1 => Some (take (length s - length s1) s)
  | None => match s with
            | [] => None
            | _ :: s' => findPath s'
            end
  end.

(** The match of [/\/\/(.+)/] in [s]: the leftmost "//" followed by a
    character other than a line terminator; the result is the text of the
    group, which runs up to the next line terminator. *)
Fixpoint findProtocol (s : jsstring) : option jsstring :=
  match s with
  | [] => None
  | c :: s' =>
      match s with
      | c1 :: c2 :: c3 :: _ =>
          if (chr "/" =? c1)%N && (chr "/" =? c2)%N && notLineTerminator c3
          then Some (takeWhile notLineTerminator (drop 2 s))
          else findProtocol s'
      | _ => findProtocol s'
      end
  end.

End Spec.

(** ** Rule lists of the test suite *)

Module Fixtures.
Import Js Options.

(** [{src: .., dest: ..}], as the tests of [isValidInput] write rules. *)
Definition rule (src dest : string) : Rule :=
  {[ "src" := VStr (lit src); "dest" := VStr (lit dest) ]}.

(** "a source that's at the front of the rules array" *)
Definition rules_duplicate : list Rule :=
  [ rule "nickschorr.com" "nickschorr.com/test/";
    rule "nickschorr.com/path/" "nickschorr.com/path/test/";
    rule "test.nickschorr.com/path/" "test.nickschorr.com/path/test/" ].

(** "a source that matches a destination at the front of the rules array" *)
Definition rules_cycle : list Rule :=
  [ rule "nickschorr.com/test/" "nickschorr.com";
    rule "nickschorr.com/path/" "nickschorr.com/path/test/";
    rule "test.nickschorr.com/path/" "test.nickschorr.com/path/test/" ].

(** The rules of the two accepting tests. *)
Definition rules_valid : list Rule :=
  [ rule "nickschorr.com/path/" "nickschorr.com/path/test/";
    rule "test.nickschorr.com/path/" "test.nickschorr.com/path/test/";
    rule "test.sub.nickschorr.com/" "sub.nickschorr.com/test/path/" ].

End Fixtures.

(** ** Rule lists as storeRule and deleteRule build them *)

Module Rules.
Import Js Options Spec.

(** The [src] fields of the rules that have one, in order. *)
Definition sources (rules : list Rule) : list val :=
  omap (λ rule : Rule, rule !! "src") rules.

(** The shape of a rule pushed by [storeRule]: the three fields, with
    trimmed strings that are not blank. *)
Definition stored (rule : Rule) : Prop :=
  ∃ src dest regex,
    rule = {[ "src" := VStr src; "dest" := VStr dest; "regex" := VBool regex ]}
    ∧ ¬ blank src ∧ ¬ blank dest
    ∧ trim src = src ∧ trim dest = dest.

(** The destination of rule [i] is the source of rule [j]: a request
    redirected by rule [i] is one that rule [j] redirects. *)
Definition leads_to (rules : list Rule) (i j : nat) : Prop :=
  ∃ rule_i rule_j v,
    rules !! i = Some rule_i ∧ rules !! j = Some rule_j
    ∧ rule_i !! "dest" = Some v ∧ rule_j !! "src" = Some v.

(** The lists obtained from the empty list by [storeRule], called with a
    source that is already trimmed, and by removing an element, which is
    what [deleteRule] does. *)
Inductive reachable : list Rule → Prop :=
| reachable_empty : reachable []
| reachable_store rules source destination isRegex :
    reachable rules →
    trim source = source →
    reachable (storeRule source destination isRegex (Some rules))
| reachable_delete rules i :
    reachable rules →
    reachable (delete i rules).

(** A list built by five calls of [storeRule] and a deletion: three rules
    are stored, a fourth call is refused (its source is the destination of
    the first rule), the second rule is deleted and a rule that redirects
    to itself is stored. *)
Definition built : list Rule :=
  let rules := storeRule (lit "a.com") (lit "b.com") false (Some []) in
  let rules := storeRule (lit "c.com") (lit "d.com") false (Some rules) in
  let rules := storeRule (lit "e.com") (lit "a.com") true (Some rules) in
  let rules := storeRule (lit "b.com") (lit "f.com") false (Some rules) in
  let rules := delete 1%nat rules in
  storeRule (lit "s.com") (lit "s.com") false (Some rules).

End Rules.

(** ** The page: storage, messages, the rules table and its buttons *)

Module Page.
Import Js Options.

(** The decimal digits of a non-negative integer, least significant
    first into [acc]: the string a template literal gives for it. *)
Fixpoint digitsOf (fuel : nat) (n : N) (acc : jsstring) : jsstring :=
  let acc := (48 + n mod 10)%N :: acc in
  match fuel with
  | O => acc
  | S fuel' => if (n <? 10)%N then acc else digitsOf fuel' (n / 10) acc
  end.

(** [String(n)] for a Number [n] that is a non-negative integer below
    10^21, from where on an exponent is written ([N.log2 n] steps are
    enough: a division by 10 more than halves the number). *)
Definition toDecimal (n : N) : jsstring :=
  digitsOf (N.to_nat (N.log2 n)) n [].

(** The id given to the delete button of a row: [`deleteRuleButton-${row}`].
    A row is an array index, so its Number is exact. *)
Definition deleteRuleButton (row : nat) : jsstring :=
  lit "deleteRuleButton-" ++ toDecimal (N.of_nat row).

(** [a.splice(start, deleteCount)]: the removed elements and the array
    that is left.  A negative [start] counts from the end, [NaN] is 0,
    an infinite [start] is the nearer end. *)
Definition splice {A} (a : list A) (start : number) (deleteCount : Z)
    : list A * list A :=
  let len := Z.of_nat (length a) in
  let actualStart :=
    match start with
    | NaN => 0
    | Int relativeStart =>
        if relativeStart <? 0 then Z.max (len + relativeStart) 0
        else Z.min relativeStart len
    | Infinity true => 0
    | Infinity false => len
    end in
  let actualDeleteCount := Z.min (Z.max deleteCount 0) (len - actualStart) in
  let from := Z.to_nat actualStart in
  let count := Z.to_nat actualDeleteCount in
  (take count (drop from a), take from a ++ drop (from + count) a).

(** [o.key] for [o] an object or [undefined]: a [TypeError] on
    [undefined], [undefined] for a missing property. *)
Definition member (o : option Rule) (key : string) : completion val :=
  match o with
  | Some obj => Normal (default VUndefined (obj !! key))
  | None => Throw TypeError
  end.

(** The objects passed to [chrome.runtime.sendMessage]. *)
Inductive Message :=
| MsgAddRule (source : val)     (* {addRule: source} *)
| MsgDeleteRule (source : val). (* {deleteRule: source} *)

(** A row of the rules table: the text of the source and destination
    cells, the id of its delete button and the ids that the click
    listeners of that button pass to [deleteRule].  (The arrow cell is
    the same in every row.) *)
Record Row := {
  sourceCell : val;
  destinationCell : val;
  buttonId : jsstring;
  clickListeners : list jsstring
}.

(** What the functions of the page read and write: the list kept in
    [chrome.storage.sync], the messages sent and the notifications raised
    so far, the text of the status line, the tables with id
    [currentRulesTable] in document order, and the two input boxes. *)
Record State := {
  redirectionRules : option (list Rule);
  sent : list Message;
  raised : list Popup;
  currentRulesStatus : option Text;
  tables : list (list Row);
  addRuleMobile : jsstring;
  addRuleDesktop : jsstring
}.

Definition set_redirectionRules (rules : list Rule) (st : State) : State :=
  {| redirectionRules := Some rules; sent := sent st; raised := raised st;
     currentRulesStatus := currentRulesStatus st; tables := tables st;
     addRuleMobile := addRuleMobile st; addRuleDesktop := addRuleDesktop st |}.

Definition set_sent (messages : list Message) (st : State) : State :=
  {| redirectionRules := redirectionRules st; sent := messages;
     raised := raised st;
     currentRulesStatus := currentRulesStatus st; tables := tables st;
     addRuleMobile := addRuleMobile st; addRuleDesktop := addRuleDesktop st |}.

Definition set_raised (popups : list Popup) (st : State) : State :=
  {| redirectionRules := redirectionRules st; sent := sent st;
     raised := popups;
     currentRulesStatus := currentRulesStatus st; tables := tables st;
     addRuleMobile := addRuleMobile st; addRuleDesktop := addRuleDesktop st |}.

Definition set_currentRulesStatus (status : Text) (st : State) : State :=
  {| redirectionRules := redirectionRules st; sent := sent st;
     raised := raised st;
     currentRulesStatus := Some status; tables := tables st;
     addRuleMobile := addRuleMobile st; addRuleDesktop := addRuleDesktop st |}.

Definition set_tables (ts : list (list Row)) (st : State) : State :=
  {| redirectionRules := redirectionRules st; sent := sent st;
     raised := raised st;
     currentRulesStatus := currentRulesStatus st; tables := ts;
     addRuleMobile := addRuleMobile st; addRuleDesktop := addRuleDesktop st |}.

Definition set_inputs (mobile desktop : jsstring) (st : State) : State :=
  {| redirectionRules := redirectionRules st; sent := sent st;
     raised := raised st;
     currentRulesStatus := currentRulesStatus st; tables := tables st;
     addRuleMobile := mobile; addRuleDesktop := desktop |}.

(** A function of the page: from a state to a completion and the state
    it leaves.  The callbacks given to [chrome.storage.sync.get] and [set]
    run in sequence, one call after the other, with no other code in
    between. *)
Definition action (A : Type) : Type := State → completion A * State.

#[export] Instance action_ret : MRet action := λ A a st, (Normal a, st).
#[export] Instance action_bind : MBind action := λ A B f act st,
  match act st with
  | (Normal a, st') => f a st'
  | (Throw e, st') => (Throw e, st')
  | (Undef, st') => (Undef, st')
  end.

(** [for(...) body] over the values [l] of the loop variable. *)
Fixpoint for_each {A} (body : A → action unit) (l : list A) : action unit :=
  match l with
  | [] => mret ()
  | x :: l' => _ ← body x; for_each body l'
  end.

Definition sendMessage (message : Message) : action unit := λ st,
  (Normal (), set_sent (sent st ++ [message]) st).

(** [element.addEventListener('click', ..)] on the first row of [rows]
    whose button has the id. *)
Fixpoint addListenerRows (id : jsstring) (rows : list Row)
    : option (list Row) :=
  match rows with
  | [] => None
  | row :: rows' =>
      if bool_decide (buttonId row = id) then
        Some ({| sourceCell := sourceCell row;
                 destinationCell := destinationCell row;
                 buttonId := buttonId row;
                 clickListeners := clickListeners row ++ [id] |} :: rows')
      else (row ::.) <$> addListenerRows id rows'
  end.

(** The same on the first table, in document order, that has such a row:
    the element [document.getElementById(id)] returns. *)
Fixpoint addListenerTables (id : jsstring) (ts : list (list Row))
    : option (list (list Row)) :=
  match ts with
  | [] => None
  | t :: ts' =>
      match addListenerRows id t with
      | Some t' => Some (t' :: ts')
      | None => (t ::.) <$> addListenerTables id ts'
      end
  end.

(** [getElementById] returns [null] when no button has the id, and the
    call of [addEventListener] on it throws. *)
Definition addBtnListener (buttonId : jsstring) : action unit := λ st,
  match addListenerTables buttonId (tables st) with
  | Some ts => (Normal (), set_tables ts st)
  | None => (Throw TypeError, st)
  end.

(** The row made for [rules[row]]. *)
Definition tableRow (rules : list Rule) (row : nat) : completion Row :=
  src ← member (rules !! row) "src";
  dest ← member (rules !! row) "dest";
  mret {| sourceCell := src; destinationCell := dest;
          buttonId := deleteRuleButton row; clickListeners := [] |}.

Definition buildRulesTable : action unit := λ st,
  let rules := default [] (redirectionRules st) in
  let ruleCount := length rules in
  if bool_decide (0 < length rules)%nat then
    let st := set_currentRulesStatus CURRENT_RULES_TEXT st in
    match mapM (tableRow rules) (seq 0 ruleCount) with
    | Normal table =>
        let st := set_tables (tables st ++ [table]) st in
        for_each (λ btn, addBtnListener (deleteRuleButton btn))
                 (seq 0 ruleCount) st
    | Throw e => (Throw e, st)
    | Undef => (Undef, st)
    end
  else (Normal (), set_currentRulesStatus NO_RULES_TEXT st).

(** The first table with the id is removed, if there is one. *)
Definition deleteRulesTable : action unit := λ st,
  match tables st with
  | _ :: ts => (Normal (), set_tables ts st)
  | [] => (Normal (), st)
  end.

Definition updateRulesTable : action unit :=
  _ ← deleteRulesTable; buildRulesTable.

Definition storeRule (source destination : jsstring) (isRegex : bool)
    : action unit := λ st,
  let rules := default [] (redirectionRules st) in
  let '(valid, shown) := isValidInput source destination rules in
  let st := set_raised (raised st ++ shown) st in
  match valid with
  | Normal true =>
      let source := trim source in
      let rules :=
        rules ++ [ {[ "src" := VStr source;
                      "dest" := VStr (trim destination);
                      "regex" := VBool isRegex ]} ] in
      let st := set_redirectionRules rules st in
      (_ ← sendMessage (MsgAddRule (VStr source)); updateRulesTable) st
  | Normal false => (Normal (), st)
  | Throw e => (Throw e, st)
  | Undef => (Undef, st)
  end.

Definition deleteRule (buttonId : jsstring) : action unit := λ st,
  match getButtonIndex buttonId with
  | Normal None => (Normal (), st)
  | Normal (Some buttonIndex) =>
      let rules := default [] (redirectionRules st) in
      let '(removedElements, rules) := splice rules buttonIndex 1 in
      let removed := head removedElements in
      let st := set_redirectionRules rules st in
      (src ← (λ st, (member removed "src", st));
       _ ← sendMessage (MsgDeleteRule src);
       updateRulesTable) st
  | Throw e => (Throw e, st)
  | Undef => (Undef, st)
  end.

(** A click on the delete button of a row: its listeners run in the
    order they were added; an exception in one is reported and the next
    one runs. *)
Definition clickDelete (row : Row) (st : State) : State :=
  foldl (λ st id, (deleteRule id st).2) st (clickListeners row).

(** The listener of the "add rule" button ([isRegex] false) and of the
    "add regex" button ([isRegex] true): the input boxes are read and
    cleared, then the storage callback of [storeRule] runs. *)
Definition clickAdd (isRegex : bool) : action unit := λ st,
  let source := addRuleMobile st in
  let destination := addRuleDesktop st in
  storeRule source destination isRegex (set_inputs [] [] st).

(** The rows made for [rules], numbered from [from], the button of row
    [row] carrying the listeners [listeners row]. *)
Fixpoint rowsFrom (from : nat) (listeners : nat → list jsstring)
    (rules : list Rule) : list Row :=
  match rules with
  | [] => []
  | rule :: rules' =>
      {| sourceCell := default VUndefined (rule !! "src");
         destinationCell := default VUndefined (rule !! "dest");
         buttonId := deleteRuleButton from;
         clickListeners := listeners from |}
      :: rowsFrom (S from) listeners rules'
  end.

(** The table that shows [rules]: a row per rule, in order, each button
    with one listener, which deletes by the id of that button. *)
Definition shown (rules : list Rule) : list Row :=
  rowsFrom 0 (λ row, [deleteRuleButton row]) rules.

(** The page shows the stored rules: no table and the "no rules" text for
    an empty list, else the "current rules" text and one table. *)
Definition shows (rules : list Rule) (st : State) : Prop :=
  match rules with
  | [] => tables st = [] ∧ currentRulesStatus st = Some NO_RULES_TEXT
  | _ :: _ =>
      tables st = [shown rules]
      ∧ currentRulesStatus st = Some CURRENT_RULES_TEXT
  end.

(** The page as it is loaded, before anything is displayed: [rules] in
    storage, the input boxes filled with [mobile] and [desktop]. *)
Definition loaded (rules : list Rule) (mobile desktop : jsstring) : State :=
  {| redirectionRules := Some rules; sent := []; raised := [];
     currentRulesStatus := None; tables := [];
     addRuleMobile := mobile; addRuleDesktop := desktop |}.

End Page.

(** ** The notification popup *)

Module Notification.
Import Js Options.

(** The callbacks passed to [showNotificationPopup]. *)
Inductive Callback :=
| hideNotificationPopup.

(** The popup element: its class list, the content given to its status
    and icon elements, and the timers set and not yet fired. *)
Record Dom := {
  classList : list jsstring;
  notificationPopupStatus : jsstring;
  notificationPopupStatusIcon : jsstring;
  timers : list (Z * Callback)
}.

(** [classList.add(token)]. *)
Definition classList_add (token : jsstring) (classes : list jsstring)
    : list jsstring :=
  if bool_decide (token ∈ classes) then classes else classes ++ [token].

Definition colorClass (c : Color) : jsstring :=
  match c with
  | red => lit "red"
  | green => lit "green"
  end.

Definition symbolText (s : Symbol) : jsstring :=
  match s with
  | WARNING_SYMBOL => [0x26a0%N]
  | SUCCESS_SYMBOL => [0x2713%N]
  end.

(** [hideNotificationPopup()]. *)
Definition hide (dom : Dom) : Dom :=
  {| classList := [lit "notification-popup"];
     notificationPopupStatus := [];
     notificationPopupStatusIcon := [];
     timers := timers dom |}.

Definition run (callback : Callback) (dom : Dom) : Dom :=
  match callback with
  | hideNotificationPopup => hide dom
  end.

(** [showNotificationPopup(symbol, text, color, delay, callback)]; [None]
    stands for an argument that is [null] or missing. *)
Definition show (symbol text : jsstring) (color : option Color)
    (delay : option Z) (callback : option Callback) (dom : Dom) : Dom :=
  if bool_decide (delay = Some 0) then dom
  else
    let dom :=
      match text with
      | [] => dom
      | _ :: _ =>
          let classes :=
            match color with
            | Some c => classList_add (colorClass c) (classList dom)
            | None => classList dom
            end in
          {| classList := classList_add (lit "visible") classes;
             notificationPopupStatus := text;
             notificationPopupStatusIcon :=
               match symbol with
               | [] => notificationPopupStatusIcon dom
               | _ :: _ => symbol
               end;
             timers := timers dom |}
      end in
    match callback with
    | Some cb =>
        match delay with
        | Some d =>
            {| classList := classList dom;
               notificationPopupStatus := notificationPopupStatus dom;
               notificationPopupStatusIcon := notificationPopupStatusIcon dom;
               timers := timers dom ++ [(d, cb)] |}
        | None => run cb dom
        end
    | None => dom
    end.

(** A timer fires: its callback runs and the timer is gone. *)
Definition fire (i : nat) (dom : Dom) : Dom :=
  match timers dom !! i with
  | Some (_, cb) =>
      run cb {| classList := classList dom;
                notificationPopupStatus := notificationPopupStatus dom;
                notificationPopupStatusIcon := notificationPopupStatusIcon dom;
                timers := delete i (timers dom) |}
  | None => dom
  end.

(** The call made by [isValidInput] for the notification [p], where
    [getMessage] gives the localized text of each global. *)
Definition notify (getMessage : Text → jsstring) (p : Popup) : Dom → Dom :=
  show (symbolText (symbol p)) (getMessage (text p)) (Some (color p))
       (Some (calcTimeToReadString (getMessage (text p))))
       (Some hideNotificationPopup).

End Notification.

(** * Properties *)

(** ** The matcher *)

Section Matcher.
Import Js.
Context {R : Type}.
Implicit Types (s : jsstring) (caps : captures) (k : cont R).

(** The body of a quantifier that reads one character of class [p] and
    updates the captures by [f]. *)
Let reads (body : jsstring → captures → cont R → option R)
    (p : N → bool) (f : N → captures → captures) : Prop :=
  ∀ s caps k, body s caps k = match s with
                              | c :: s' => if p c then k s' (f c caps) else None
                              | [] => None
                              end.

Lemma greedy_reads body p f k fuel s caps :
  reads body p f →
  (∀ s1 caps1, k s1 caps1 ≠ None) →
  (length s < fuel)%nat →
  greedy body k fuel s caps =
    match s with
    | c :: _ =>
        if p c then k (dropWhile p s) (foldl (λ a c, f c a) caps (takeWhile p s))
        else None
    | [] => None
    end.
Proof.
  intros Hbody Hk. revert s caps.
  induction fuel as [|fuel IH]; intros s caps Hlen; [lia|].
  cbn [greedy]. rewrite Hbody.
  destruct s as [|c s']; [done|].
  destruct (p c) eqn:Hp; [|done].
  rewrite bool_decide_eq_true_2 by (cbn; lia).
  rewrite IH by (cbn in Hlen; lia).
  cbn [dropWhile takeWhile foldl]. rewrite Hp. cbn [foldl].
  destruct s' as [|c' s'']; [done|].
  destruct (p c') eqn:Hp'.
  - cbn [dropWhile takeWhile foldl]. rewrite Hp'.
    destruct (k _ _) eqn:Hres; [done|]. by apply Hk in Hres.
  - cbn [dropWhile takeWhile foldl]. by rewrite Hp'.
Qed.

Lemma lazy_reads body p f k fuel s caps :
  reads body p f →
  lazy body k (S fuel) s caps =
    match s with
    | c :: s' =>
        if p c then
          match k s' (f c caps) with
          | Some x => Some x
          | None => lazy body k fuel s' (f c caps)
          end
        else None
    | [] => None
    end.
Proof.
  intros Hbody. cbn [lazy]. rewrite Hbody.
  destruct s as [|c s']; [done|].
  destruct (p c); [|done].
  destruct (k s' (f c caps)); [done|].
  by rewrite bool_decide_eq_true_2 by (cbn; lia).
Qed.

End Matcher.

(** ** Strings *)

Section Strings.
Import Js.
Implicit Types (s pat : jsstring) (p : N → bool).

Lemma takeWhile_dropWhile p s : takeWhile p s ++ dropWhile p s = s.
Proof. induction s as [|c s IH]; cbn; [done|]. destruct (p c); cbn; congruence. Qed.

Lemma length_dropWhile p s : (length (dropWhile p s) ≤ length s)%nat.
Proof. rewrite <-(takeWhile_dropWhile p s) at 2. rewrite length_app. lia. Qed.

Lemma take_dropWhile p s :
  take (length s - length (dropWhile p s)) s = takeWhile p s.
Proof.
  rewrite <-(takeWhile_dropWhile p s) at 1 3.
  rewrite length_app, Nat.add_sub. by rewrite take_app_length.
Qed.

Lemma takeWhile_all p s : Forall (λ c, p c = true) s → takeWhile p s = s.
Proof. induction 1 as [|c s Hc _ IH]; cbn; [done|]. by rewrite Hc, IH. Qed.

Lemma dropWhile_all p s : Forall (λ c, p c = true) s → dropWhile p s = [].
Proof. induction 1 as [|c s Hc _ IH]; cbn; [done|]. by rewrite Hc. Qed.

Lemma takeWhile_Forall p s : Forall (λ c, p c = true) (takeWhile p s).
Proof.
  induction s as [|c s IH]; cbn; [constructor|].
  destruct (p c) eqn:Hc; by constructor.
Qed.

Lemma dropWhile_app_all p s1 s2 :
  Forall (λ c, p c = true) s1 → dropWhile p (s1 ++ s2) = dropWhile p s2.
Proof. induction 1 as [|c s Hc _ IH]; cbn; [done|]. by rewrite Hc. Qed.

Lemma startsWith_prefix pat s :
  startsWith pat s = true ↔ ∃ rest, s = pat ++ rest.
Proof.
  revert s. induction pat as [|x pat IH]; intros s; cbn.
  - split; [eauto|done].
  - destruct s as [|c s]; [split; [done|by intros [? ?]]|].
    rewrite andb_true_iff, IH, N.eqb_eq. split.
    + intros [-> [rest ->]]. eauto.
    + intros [rest [= -> ->]]. eauto.
Qed.

Lemma startsWith_length pat s :
  startsWith pat s = true → (length pat ≤ length s)%nat.
Proof.
  intros [rest ->]%startsWith_prefix. rewrite length_app. lia.
Qed.

Lemma indexOf_lt pat s i : indexOf pat s = Some i → (i + length pat ≤ length s)%nat.
Proof.
  revert i. induction s as [|c s IH]; intros i; cbn [indexOf].
  - destruct (startsWith pat []) eqn:Hp; [|done].
    intros [= <-]. by apply startsWith_length in Hp.
  - destruct (startsWith pat (c :: s)) eqn:Hp.
    + intros [= <-]. by apply startsWith_length in Hp.
    + destruct (indexOf pat s) as [j|]; [|done]. cbn.
      intros [= <-]. specialize (IH j eq_refl). cbn. lia.
Qed.

End Strings.

(** ** What the regular expressions of the file match *)

Section Expressions.
Import Js Options Spec.
Implicit Types (s : jsstring) (caps : captures).

Let final : cont (jsstring * captures) := λ s1 caps1, Some (s1, caps1).

Lemma hasChars_spec s : hasChars s = negb (forallb isWhiteSpace s).
Proof.
  unfold hasChars, test, re_nonspace.
  induction s as [|c s IH]; [done|].
  cbn [exec m one forallb].
  destruct (isWhiteSpace c); cbn [negb andb]; [|done].
  destruct s; [done|]. exact IH.
Qed.

Lemma hasChars_blank s : hasChars s = false ↔ blank s.
Proof.
  rewrite hasChars_spec, negb_false_iff. unfold blank.
  rewrite forallb_forall, Forall_forall.
  split; intros H c Hc; apply H; [by apply list_elem_of_In|by apply list_elem_of_In].
Qed.

Lemma m_digits s :
  m re_digits s ∅ final =
    match s with
    | c :: _ =>
        if isDigit c then
          Some (dropWhile isDigit s,
                foldl (λ a c, <[1%nat := [c]]> a) ∅ (takeWhile isDigit s))
        else None
    | [] => None
    end.
Proof.
  unfold re_digits. cbn [m].
  rewrite (greedy_reads _ isDigit (λ c a, <[1%nat := [c]]> a)); [done| |done|lia].
  intros s0 caps k. cbn [m].
  destruct s0 as [|c s0]; [done|]. unfold one.
  change ((chr "0" <=? c)%N && (c <=? chr "9")%N) with (isDigit c).
  destruct (isDigit c); [|done].
  cbn [length]. by replace (S (length s0) - length s0)%nat with 1%nat by lia.
Qed.

Lemma exec_digits s :
  matched <$> exec re_digits s =
    match firstDigits s with
    | [] => None
    | digits => Some digits
    end.
Proof.
  unfold firstDigits.
  induction s as [|c s IH]; [done|].
  cbn [exec]. fold final. rewrite m_digits.
  destruct (isDigit c) eqn:Hc.
  - cbn [fmap option_fmap option_map matched].
    rewrite take_dropWhile. cbn [dropWhile takeWhile]. rewrite Hc.
    cbn [negb takeWhile]. by rewrite Hc.
  - cbn [dropWhile negb]. rewrite Hc. cbn [negb]. exact IH.
Qed.

Lemma foldl_const (caps : captures) (l : jsstring) :
  foldl (λ a _, a) caps l = caps.
Proof. by induction l. Qed.

Lemma m_protocol s :
  m re_protocol s ∅ final =
    match s with
    | c1 :: c2 :: c3 :: _ =>
        if (chr "/" =? c1)%N && (chr "/" =? c2)%N && notLineTerminator c3
        then Some (dropWhile notLineTerminator (drop 2 s),
                   {[1%nat := takeWhile notLineTerminator (drop 2 s)]})
        else None
    | _ => None
    end.
Proof.
  unfold re_protocol. cbn [m]. unfold one at 1.
  destruct s as [|c1 s]; [done|].
  destruct (chr "/" =? c1)%N; [|by destruct s as [|? [|? ?]]].
  unfold one at 1.
  destruct s as [|c2 s]; [done|].
  destruct (chr "/" =? c2)%N; [|by destruct s].
  rewrite (greedy_reads _ notLineTerminator (λ _ a, a)); [|done|done|lia].
  destruct s as [|c3 s]; [done|].
  cbn [andb drop]. destruct (notLineTerminator c3) eqn:H3; [|done].
  rewrite take_dropWhile, foldl_const. done.
Qed.

Lemma exec_protocol s :
  (λ a, groups a !! 1%nat) <$> exec re_protocol s = Some <$> findProtocol s.
Proof.
  induction s as [|c1 s IH]; [done|].
  cbn [exec findProtocol]. fold final. rewrite m_protocol.
  destruct s as [|c2 [|c3 s]]; [done|done|].
  destruct (_ && _ && _).
  - cbn. by rewrite lookup_singleton_eq.
  - exact IH.
Qed.

Lemma lazy_path fuel s s0 caps :
  (length s < fuel)%nat →
  lazy (m Dot)
       (λ s1 caps1,
          m (Chr (chr "/")) s1
            (<[1%nat := take (length s0 - length s1) s0]> caps1) final)
       fuel s caps =
    match lazyEnd s with
    | Some s1 => Some (tail s1, <[1%nat := take (length s0 - length s1) s0]> caps)
    | None => None
    end.
Proof.
  revert s. induction fuel as [|fuel IH]; intros s Hlen; [lia|].
  rewrite (lazy_reads _ notLineTerminator (λ _ a, a)) by done.
  destruct s as [|c s]; [done|]. cbn [lazyEnd].
  destruct (notLineTerminator c); [|done].
  destruct s as [|c' s].
  - cbn [m one]. by destruct fuel.
  - cbn [m one]. destruct (chr "/" =? c')%N; [done|].
    apply IH. cbn in Hlen |- *. lia.
Qed.

Lemma m_path s :
  m re_path s ∅ final =
    match lazyEnd s with
    | Some s1 => Some (tail s1, {[1%nat := take (length s - length s1) s]})
    | None => None
    end.
Proof.
  unfold re_path.
  change (m (Seq (Group 1 (PlusLazy Dot)) (Chr (chr "/"))) s ∅ final)
    with (lazy (m Dot)
            (λ s1 caps1,
               m (Chr (chr "/")) s1
                 (<[1%nat := take (length s - length s1) s]> caps1) final)
            (S (length s)) s ∅).
  by rewrite lazy_path by lia.
Qed.

Lemma exec_path s :
  (λ a, groups a !! 1%nat) <$> exec re_path s = Some <$> findPath s.
Proof.
  induction s as [|c s IH]; [done|].
  cbn [exec findPath]. fold final. rewrite m_path.
  destruct (lazyEnd (c :: s)) as [s1|].
  - cbn. by rewrite lookup_singleton_eq.
  - exact IH.
Qed.

End Expressions.

(** ** getDomain *)

Section GetDomain.
Import Js Options Spec.
Implicit Types (s url : jsstring).

Lemma index_group (e : option MatchArray) (o : option jsstring) url :
  (λ a, groups a !! 1%nat) <$> e = Some <$> o →
  match e with
  | Some _ => index e 1
  | None => mret url
  end = Normal (default url o).
Proof.
  destruct e as [a|], o as [g|]; cbn; try done.
  intros [= ->]. done.
Qed.

(** [getDomain] in terms of what the two expressions find. *)
Lemma getDomain_find url :
  getDomain url =
    Normal (default url (findPath (default url (findProtocol url)))).
Proof.
  unfold getDomain.
  rewrite (index_group _ _ url (exec_protocol url)). cbn [mbind completion_bind].
  rewrite (index_group _ _ url (exec_path _)). done.
Qed.

Lemma findProtocol_indexOf s :
  Forall (λ c, notLineTerminator c = true) s →
  findProtocol s =
    match indexOf (lit "//") s with
    | Some i =>
        if bool_decide (i + 2 < length s)%nat then Some (drop (i + 2) s) else None
    | None => None
    end.
Proof.
  induction 1 as [|c1 s H1 Hs IH]; [done|].
  assert (Hstep : findProtocol s =
            match S <$> indexOf (lit "//") s with
            | Some i =>
                if bool_decide (i + 2 < length (c1 :: s))%nat
                then Some (drop (i + 2) (c1 :: s)) else None
            | None => None
            end).
  { rewrite IH. destruct (indexOf (lit "//") s) as [i|]; [|done]. cbn.
    by rewrite (bool_decide_ext (S (i + 2) < S (length s))%nat
                                (i + 2 < length s)%nat) by lia. }
  cbn [findProtocol].
  change (indexOf (lit "//") (c1 :: s))
    with (if startsWith (lit "//") (c1 :: s) then Some O
          else S <$> indexOf (lit "//") s).
  destruct s as [|c2 [|c3 s]].
  - change (startsWith (lit "//") [c1]) with ((chr "/" =? c1)%N && false).
    by rewrite andb_false_r.
  - change (startsWith (lit "//") [c1; c2])
      with ((chr "/" =? c1)%N && ((chr "/" =? c2)%N && true)).
    destruct (chr "/" =? c1)%N, (chr "/" =? c2)%N; cbn [andb];
      try exact Hstep.
    done.
  - change (startsWith (lit "//") (c1 :: c2 :: c3 :: s))
      with ((chr "/" =? c1)%N && ((chr "/" =? c2)%N && true)).
    apply Forall_cons in Hs as [_ Hs]. apply Forall_cons in Hs as [H3 Hs].
    rewrite H3.
    destruct (chr "/" =? c1)%N, (chr "/" =? c2)%N; cbn [andb]; try exact Hstep.
    rewrite bool_decide_eq_true_2 by (cbn; lia).
    cbn [drop Nat.add]. cbn [takeWhile]. rewrite H3.
    by rewrite takeWhile_all.
Qed.

Lemma indexOf_slash_cons c s :
  indexOf (lit "/") (c :: s) =
    if (chr "/" =? c)%N then Some O else S <$> indexOf (lit "/") s.
Proof.
  change (indexOf (lit "/") (c :: s))
    with (if (chr "/" =? c)%N && true then Some O
          else S <$> indexOf (lit "/") s).
  by rewrite andb_true_r.
Qed.

Lemma lazyEnd_indexOf c s :
  Forall (λ c, notLineTerminator c = true) (c :: s) →
  lazyEnd (c :: s) = (λ i, drop i s) <$> indexOf (lit "/") s.
Proof.
  revert c. induction s as [|c' s IH]; intros c Hs.
  - apply Forall_cons in Hs as [Hc _]. cbn. by rewrite Hc.
  - apply Forall_cons in Hs as [Hc Hs].
    change (lazyEnd (c :: c' :: s))
      with (if notLineTerminator c
            then if (chr "/" =? c')%N then Some (c' :: s) else lazyEnd (c' :: s)
            else None).
    rewrite Hc, indexOf_slash_cons.
    destruct (chr "/" =? c')%N; [done|].
    rewrite (IH _ Hs). by destruct (indexOf (lit "/") s).
Qed.

Lemma findPath_no_slash s : indexOf (lit "/") s = None → findPath s = None.
Proof.
  assert (Hend : ∀ s, indexOf (lit "/") s = None → lazyEnd s = None).
  { clear s. intros s. induction s as [|c s IH]; [done|].
    rewrite indexOf_slash_cons.
    destruct (chr "/" =? c)%N; [done|].
    destruct (indexOf (lit "/") s) as [i|] eqn:Hi; [done|]. intros _.
    cbn [lazyEnd]. destruct (notLineTerminator c); [|done].
    destruct s as [|c' s]; [done|].
    rewrite indexOf_slash_cons in Hi.
    destruct (chr "/" =? c')%N; [done|]. by apply IH. }
  induction s as [|c s IH]; [done|].
  intros Hi. cbn [findPath]. rewrite (Hend _ Hi).
  rewrite indexOf_slash_cons in Hi.
  destruct (chr "/" =? c)%N; [done|].
  destruct (indexOf (lit "/") s); [done|]. by apply IH.
Qed.

Lemma findPath_indexOf s :
  Forall (λ c, notLineTerminator c = true) s →
  findPath s =
    match s with
    | [] => None
    | c :: rest => (λ i, c :: take i rest) <$> indexOf (lit "/") rest
    end.
Proof.
  destruct s as [|c s]; [done|]. intros Hs.
  cbn [findPath]. rewrite (lazyEnd_indexOf _ _ Hs).
  destruct (indexOf (lit "/") s) as [i|] eqn:Hi; cbn.
  - apply indexOf_lt in Hi. cbn in Hi. rewrite length_drop.
    by replace (S (length s) - (length s - i))%nat with (S i) by lia.
  - by apply findPath_no_slash.
Qed.

Lemma afterProtocol_find url :
  Forall (λ c, notLineTerminator c = true) url →
  default url (findProtocol url) = afterProtocol url.
Proof.
  intros Hs. rewrite (findProtocol_indexOf _ Hs). unfold afterProtocol.
  destruct (indexOf (lit "//") url); [|done]. by case_bool_decide.
Qed.

Lemma afterProtocol_Forall (P : N → Prop) url :
  Forall P url → Forall P (afterProtocol url).
Proof.
  intros Hs. unfold afterProtocol.
  destruct (indexOf (lit "//") url); [|done].
  case_bool_decide; [by apply Forall_drop|done].
Qed.

Lemma beforePath_find s :
  Forall (λ c, notLineTerminator c = true) s →
  findPath s = None ∧ beforePath s = s
  ∨ findPath s = Some (beforePath s).
Proof.
  intros Hs. rewrite (findPath_indexOf _ Hs). unfold beforePath.
  destruct s as [|c rest]; [by left|].
  destruct (indexOf (lit "/") rest); [by right|by left].
Qed.

End GetDomain.

(** ** getSubdomainDifference *)

Section SubdomainDifference.
Import Js Options Spec.
Implicit Types (s pat longer shorter : jsstring).

(** [replace] with the empty replacement removes the first occurrence. *)
Lemma replace_removeFirst longer shorter :
  replace longer shorter [] = removeFirst shorter longer.
Proof.
  unfold replace.
  induction longer as [|c longer IH]; cbn [indexOf removeFirst].
  - destruct (startsWith shorter []); [done|done].
  - destruct (startsWith shorter (c :: longer)); [done|].
    rewrite <-IH.
    destruct (indexOf shorter longer) as [i|]; done.
Qed.

(** The counting loop over the indices of [postReplace]. *)
Lemma period_loop (pre s : jsstring) (n : Z) :
  foldl (λ periodCounter i,
           if bool_decide (charAt (pre ++ s) i = lit ".")
           then periodCounter + 1 else periodCounter)
        n (seq (length pre) (length s))
  = n + countPeriods s.
Proof.
  unfold countPeriods.
  revert pre n. induction s as [|c s IH]; intros pre n; cbn [length seq foldl].
  - cbn. lia.
  - assert (charAt (pre ++ c :: s) (length pre) = [c]) as ->
      by (unfold charAt; by rewrite list_lookup_middle).
    replace (pre ++ c :: s) with ((pre ++ [c]) ++ s) by by rewrite <-app_assoc.
    replace (S (length pre)) with (length (pre ++ [c]))
      by (rewrite length_app; cbn; lia).
    rewrite IH. rewrite filter_cons.
    case_bool_decide as Hc; case_decide as Hc'; cbn [length].
    + lia.
    + destruct Hc'. by injection Hc.
    + destruct Hc. by rewrite Hc'.
    + lia.
Qed.

(** The difference, once both domains are known. *)
Lemma getSubdomainDifference_residual source destination a b :
  getDomain source = Normal a →
  getDomain destination = Normal b →
  getSubdomainDifference source destination =
    Normal (if bool_decide (length a ≤ length b)%nat
            then residualDelta b a else residualDelta a b).
Proof.
  intros Ha Hb. unfold getSubdomainDifference.
  rewrite Ha, Hb. cbn [mbind completion_bind].
  assert (Hloop : ∀ longer shorter,
    (if bool_decide (length (replace longer shorter []) = length longer)
     then mret 0
     else mret (foldl (λ periodCounter i,
                         if bool_decide (charAt (replace longer shorter []) i = lit ".")
                         then periodCounter + 1 else periodCounter)
                      0 (seq 0 (length (replace longer shorter [])))))
    = Normal (residualDelta longer shorter)).
  { intros longer shorter. unfold residualDelta.
    rewrite replace_removeFirst.
    case_bool_decide; [done|].
    by rewrite <-(Z.add_0_l (countPeriods _)), <-(period_loop [] _ 0). }
  case_bool_decide; apply Hloop.
Qed.

Lemma removeFirst_longer pat s :
  (length s < length pat)%nat → removeFirst pat s = s.
Proof.
  induction s as [|c s IH]; intros Hlen; cbn [removeFirst].
  - destruct (startsWith pat []) eqn:Hp; [|done].
    apply startsWith_length in Hp. lia.
  - destruct (startsWith pat (c :: s)) eqn:Hp.
    + apply startsWith_length in Hp. lia.
    + rewrite IH; [done|]. cbn in Hlen. lia.
Qed.

(** Two strings of the same length have no residual. *)
Lemma residualDelta_same_length longer shorter :
  length shorter = length longer → residualDelta longer shorter = 0.
Proof.
  intros Hlen. unfold residualDelta.
  destruct longer as [|c longer].
  - destruct shorter; done.
  - cbn [removeFirst].
    destruct (startsWith shorter (c :: longer)) eqn:Hp.
    + rewrite Hlen, drop_all. done.
    + rewrite removeFirst_longer by (cbn in Hlen; lia).
      by rewrite bool_decide_eq_true_2.
Qed.

End SubdomainDifference.

(** ** isValidInput *)

Section Validation.
Import Js Options Spec.
Implicit Types (source destination s : jsstring) (rules : list Rule).

Lemma hasValue_lookup (obj : Rule) key v :
  hasValue obj key v = true ↔ obj !! key = Some v.
Proof.
  unfold hasValue, strict_eq.
  rewrite andb_true_iff, !bool_decide_eq_true.
  destruct (obj !! key) as [w|]; cbn.
  - split; [by intros [_ ->]|by intros [= ->]; eauto].
  - split; [by intros [[? [=]] _]|done].
Qed.

Lemma some_Exists {A} (f : A → bool) (l : list A) :
  some f l = true ↔ Exists (λ x, f x = true) l.
Proof.
  induction l as [|x l IH]; cbn [some].
  - split; [done|by intros ?%Exists_nil].
  - rewrite orb_true_iff, Exists_cons, IH. done.
Qed.

Lemma some_has_field key s rules :
  some (λ obj, hasValue obj key (VStr s)) rules = true ↔ has_field key s rules.
Proof.
  rewrite some_Exists. unfold has_field.
  split; intros H; (eapply Exists_impl; [exact H|]);
    intros obj; apply hasValue_lookup.
Qed.

Lemma getDomain_total url : ∃ domain, getDomain url = Normal domain.
Proof. rewrite getDomain_find. eauto. Qed.

Lemma getSubdomainDifference_total source destination :
  ∃ delta, getSubdomainDifference source destination = Normal delta.
Proof.
  destruct (getDomain_total source) as [a Ha].
  destruct (getDomain_total destination) as [b Hb].
  rewrite (getSubdomainDifference_residual _ _ _ _ Ha Hb). eauto.
Qed.

(** The outcome of [validate] is the one the ordered checks give. *)
Lemma validate_checks source destination rules delta :
  getSubdomainDifference source destination = Normal delta →
  validate source destination rules =
    Normal (checks source destination rules delta).
Proof.
  intros Hdelta. unfold validate, isValidInput, checks.
  destruct (hasChars source) eqn:Hs; cbn [negb orb].
  2:{ apply hasChars_blank in Hs. by rewrite decide_True by auto. }
  destruct (hasChars destination) eqn:Hd; cbn [negb].
  2:{ apply hasChars_blank in Hd. by rewrite decide_True by auto. }
  rewrite decide_False.
  2:{ intros [H|H]; apply hasChars_blank in H; congruence. }
  destruct (some (λ obj, hasValue obj "src" (VStr source)) rules) eqn:Hsrc.
  { apply some_has_field in Hsrc. by rewrite decide_True. }
  rewrite decide_False.
  2:{ intros H%some_has_field. congruence. }
  destruct (some (λ obj, hasValue obj "dest" (VStr source)) rules) eqn:Hdest.
  { apply some_has_field in Hdest. by rewrite decide_True. }
  rewrite decide_False.
  2:{ intros H%some_has_field. congruence. }
  rewrite Hdelta.
  case_bool_decide.
  - by rewrite decide_True by done.
  - by rewrite decide_False.
Qed.

(** Rules that differ in their [regex] field only give the same answers. *)
Lemma some_hasValue_regex key v rules1 rules2 :
  key ≠ "regex" →
  Forall2 (λ r1 r2 : Rule, delete "regex" r1 = delete "regex" r2) rules1 rules2 →
  some (λ obj, hasValue obj key v) rules1 = some (λ obj, hasValue obj key v) rules2.
Proof.
  intros Hkey. induction 1 as [|r1 r2 rules1 rules2 Hr _ IH]; [done|].
  cbn [some]. rewrite IH. f_equal.
  unfold hasValue.
  assert (r1 !! key = r2 !! key) as ->; [|done].
  rewrite <-(lookup_delete_ne r1 "regex" key), <-(lookup_delete_ne r2 "regex" key)
    by done.
  by rewrite Hr.
Qed.

End Validation.

(** ** trim and parseInt *)

Section TrimParse.
Import Js Options Spec.
Implicit Types (s pre post : jsstring) (p : N → bool).

Lemma dropWhile_fixed p s :
  length (dropWhile p s) = length s → dropWhile p s = s.
Proof.
  destruct s as [|c s]; [done|]. cbn [dropWhile].
  destruct (p c); [|done].
  pose proof (length_dropWhile p s). cbn [length]. lia.
Qed.

Lemma length_trim_le s :
  (length (trim s) ≤ length (dropWhile isWhiteSpace s))%nat
  ∧ (length (dropWhile isWhiteSpace s) ≤ length s)%nat.
Proof.
  unfold trim. rewrite length_reverse. split.
  - etrans; [apply length_dropWhile|]. by rewrite length_reverse.
  - apply length_dropWhile.
Qed.

(** A trimmed string starts and ends with no white space. *)
Lemma trim_fixed s :
  trim s = s →
  dropWhile isWhiteSpace s = s
  ∧ dropWhile isWhiteSpace (reverse s) = reverse s.
Proof.
  intros Htrim.
  destruct (length_trim_le s) as [H1 H2]. rewrite Htrim in H1.
  assert (Hs : dropWhile isWhiteSpace s = s) by (apply dropWhile_fixed; lia).
  split; [done|].
  unfold trim in Htrim. rewrite Hs in Htrim.
  apply dropWhile_fixed.
  rewrite <-Htrim at 2. by rewrite !length_reverse.
Qed.

Lemma dropWhile_app_fixed p s post :
  s ≠ [] → dropWhile p s = s → dropWhile p (s ++ post) = s ++ post.
Proof.
  destruct s as [|c s]; [done|]. intros _. cbn [dropWhile app].
  destruct (p c); [|done].
  intros H. pose proof (length_dropWhile p s) as Hlen.
  rewrite H in Hlen. cbn in Hlen. lia.
Qed.

(** White space added around a trimmed string is what [trim] removes. *)
Lemma trim_padded pre s post :
  blank pre → blank post → trim s = s → trim (pre ++ s ++ post) = s.
Proof.
  intros Hpre Hpost [Hhead Hlast]%trim_fixed. unfold trim.
  rewrite dropWhile_app_all by exact Hpre.
  destruct s as [|c s].
  - cbn [app]. by rewrite (dropWhile_all _ post) by exact Hpost.
  - rewrite dropWhile_app_fixed by done.
    rewrite reverse_app, dropWhile_app_all
      by (apply Forall_reverse; exact Hpost).
    by rewrite Hlast, reverse_involutive.
Qed.

Lemma isDigit_cases c :
  isDigit c = true → c ∈ [48; 49; 50; 51; 52; 53; 54; 55; 56; 57]%N.
Proof.
  unfold isDigit. rewrite andb_true_iff, !N.leb_le. intros [Hlo Hhi].
  assert (c = 48 ∨ c = 49 ∨ c = 50 ∨ c = 51 ∨ c = 52 ∨ c = 53 ∨ c = 54
          ∨ c = 55 ∨ c = 56 ∨ c = 57)%N as Hc by lia.
  repeat (destruct Hc as [->|Hc]; [set_solver|]). subst. set_solver.
Qed.

Lemma roundTiesToEven_exact n :
  0 ≤ n < 2 ^ 53 → roundTiesToEven n = n.
Proof.
  intros [Hlo Hhi]. unfold roundTiesToEven.
  assert (Z.log2 n < 53) as Hlog.
  { destruct (decide (n = 0)) as [->|]; [done|].
    apply Z.log2_lt_pow2; lia. }
  cbn zeta. destruct (Z.leb_spec (Z.log2 n - 52) 0); [done|lia].
Qed.

Lemma roundTiesToEven_nonneg n :
  0 ≤ n → 0 ≤ roundTiesToEven n.
Proof.
  intros Hn. unfold roundTiesToEven. cbn zeta.
  destruct (Z.leb_spec (Z.log2 n - 52) 0); [done|].
  apply Z.shiftl_nonneg.
  assert (0 ≤ Z.shiftr n (Z.log2 n - 52)) by by apply Z.shiftr_nonneg.
  destruct (_ || _); lia.
Qed.

(** Below 2^53 the Number for an integer is that integer. *)
Lemma toNumber_exact n :
  - 2 ^ 53 < n < 2 ^ 53 → toNumber n = Int n.
Proof.
  intros Hn. unfold toNumber. cbn zeta.
  rewrite roundTiesToEven_exact by lia.
  destruct (Z.leb_spec (2 ^ 1024) (Z.abs n)) as [Hbig|_].
  - assert (2 ^ 53 < 2 ^ 1024) by (apply Z.pow_lt_mono_r; lia). lia.
  - f_equal. lia.
Qed.

(** The Number for a non-negative integer is a non-negative integer or
    the positive infinity. *)
Lemma toNumber_nonneg n :
  0 ≤ n → toNumber n = Infinity false ∨ ∃ k, 0 ≤ k ∧ toNumber n = Int k.
Proof.
  intros Hn. unfold toNumber. cbn zeta.
  pose proof (roundTiesToEven_nonneg (Z.abs n)) as Hr.
  destruct (Z.leb_spec (2 ^ 1024) (roundTiesToEven (Z.abs n))).
  - left. f_equal. lia.
  - right. eexists. split; [|done]. nia.
Qed.

Lemma roundTiesToEven_ge n :
  0 < n → 2 ^ Z.log2 n ≤ roundTiesToEven n.
Proof.
  intros Hn. unfold roundTiesToEven. cbn zeta.
  destruct (Z.log2_spec n Hn) as [Hlo _].
  destruct (Z.leb_spec (Z.log2 n - 52) 0) as [|He]; [done|].
  set (e := Z.log2 n - 52) in *.
  assert (Hpow : 2 ^ Z.log2 n = 2 ^ 52 * 2 ^ e).
  { rewrite <- Z.pow_add_r by lia. f_equal. lia. }
  assert (0 < 2 ^ e) as Hpos by (apply Z.pow_pos_nonneg; lia).
  assert (2 ^ 52 ≤ Z.shiftr n e) as Hq.
  { rewrite Z.shiftr_div_pow2 by lia.
    apply Z.div_le_lower_bound; [done|]. rewrite Hpow in Hlo. lia. }
  rewrite Z.shiftl_mul_pow2, Hpow by lia.
  destruct (_ || _); nia.
Qed.

(** From 2^1024 on the Number for an integer is the positive infinity. *)
Lemma toNumber_infinite n :
  2 ^ 1024 ≤ n → toNumber n = Infinity false.
Proof.
  intros Hn.
  assert (0 < n) as Hpos.
  { eapply Z.lt_le_trans; [|exact Hn]. by apply Z.pow_pos_nonneg. }
  assert (1024 ≤ Z.log2 n) as Hlog by by apply Z.log2_le_pow2.
  assert (2 ^ 1024 ≤ roundTiesToEven (Z.abs n)) as Hround.
  { rewrite Z.abs_eq by lia. etrans; [|by apply roundTiesToEven_ge].
    apply Z.pow_le_mono_r; lia. }
  unfold toNumber. cbn zeta.
  destruct (Z.leb_spec (2 ^ 1024) (roundTiesToEven (Z.abs n))) as [_|Hlt].
  - f_equal. apply Z.ltb_ge. lia.
  - exfalso. apply (Z.lt_irrefl (2 ^ 1024)). by eapply Z.le_lt_trans.
Qed.

Lemma parseInt_digits digits :
  digits ≠ [] → Forall (λ c, isDigit c = true) digits →
  parseInt digits = toNumber (mathInt digits).
Proof.
  destruct digits as [|c digits]; [done|]. intros _ Hall.
  assert (Hrun : takeWhile isDigit (c :: digits) = c :: digits)
    by by apply takeWhile_all.
  apply Forall_cons in Hall as [Hc _].
  apply isDigit_cases in Hc.
  assert (Hws : isWhiteSpace c = false).
  { repeat (apply elem_of_cons in Hc as [->|Hc]; [done|]).
    by apply elem_of_nil in Hc. }
  unfold parseInt. cbn [dropWhile]. rewrite Hws.
  repeat (apply elem_of_cons in Hc as [->|Hc];
          [rewrite Hrun; by rewrite Z.mul_1_l|]).
  by apply elem_of_nil in Hc.
Qed.

Lemma mathInt_nonneg digits :
  Forall (λ c, isDigit c = true) digits → 0 ≤ mathInt digits.
Proof.
  intros Hall. unfold mathInt.
  assert (Hacc : ∀ acc, 0 ≤ acc →
            0 ≤ foldl (λ acc d, 10 * acc + (Z.of_N d - 48)) acc digits);
    [|by apply Hacc].
  induction Hall as [|c digits Hc _ IH]; intros acc Hn; cbn [foldl]; [done|].
  apply IH. unfold isDigit in Hc.
  apply andb_true_iff in Hc as [Hlo%N.leb_le _]. lia.
Qed.

(** [firstDigits] is the first maximal run of digits. *)
Lemma firstDigits_run s :
  ∃ pre post,
    s = pre ++ firstDigits s ++ post
    ∧ Forall (λ c, isDigit c = false) pre
    ∧ Forall (λ c, isDigit c = true) (firstDigits s)
    ∧ (∀ c, head post = Some c → isDigit c = false).
Proof.
  unfold firstDigits.
  set (notDigit := λ c, negb (isDigit c)).
  exists (takeWhile notDigit s), (dropWhile isDigit (dropWhile notDigit s)).
  split; [by rewrite !takeWhile_dropWhile|].
  split.
  { eapply Forall_impl; [apply takeWhile_Forall|].
    intros c. unfold notDigit. by intros ->%negb_true_iff. }
  split; [apply takeWhile_Forall|].
  generalize (dropWhile notDigit s). intros l c.
  induction l as [|x l IH]; [done|]. cbn [dropWhile].
  destruct (isDigit x) eqn:Hx; [done|]. by intros [= <-].
Qed.

End TrimParse.

(** ** The test suite of the repository, run on the embedding *)

Section Tests.
Import Js Options Spec Fixtures.

Example hasValue_empty : hasValue ∅ "" (VStr (lit "")) = false.
Proof. by vm_compute. Qed.

Example hasValue_wrong_key :
  hasValue {[ "testKey" := VStr (lit "value") ]} "key" (VStr (lit "value")) = false.
Proof. by vm_compute. Qed.

Example hasValue_wrong_value :
  hasValue {[ "testKey" := VStr (lit "invalid") ]} "testKey" (VStr (lit "value"))
  = false.
Proof. by vm_compute. Qed.

Example hasValue_match :
  hasValue {[ "testKey" := VStr (lit "value") ]} "testKey" (VStr (lit "value"))
  = true.
Proof. by vm_compute. Qed.

Example hasChars_tests :
  hasChars (lit "") = false
  ∧ hasChars [32; 32; 32; 9; 9; 9; 9; 32; 32; 9; 9; 32; 32]%N = false
  ∧ hasChars (lit "test_string") = true
  ∧ hasChars (9%N :: lit "this is a test string!") = true.
Proof. by vm_compute. Qed.

Example calcTimeToReadString_tests :
  calcTimeToReadString (lit "") = 0
  ∧ 0 < calcTimeToReadString (lit "non-empty string").
Proof. by vm_compute. Qed.

Example getSubdomainDifference_tests :
  getSubdomainDifference (lit "") (lit "") = Normal 0
  ∧ getSubdomainDifference (lit "http://nickschorr.com/")
                           (lit "http://nickschorr.com/") = Normal 0
  ∧ getSubdomainDifference (lit "http://one.nickschorr.com/")
                           (lit "http://two.nickschorr.com/") = Normal 0
  ∧ getSubdomainDifference (lit "http://one.nickschorr.com/")
                           (lit "http://nickschorr.com/") = Normal 1
  ∧ getSubdomainDifference (lit "nickschorr.com") (lit "nickschorr.com")
    = Normal 0
  ∧ getSubdomainDifference (lit "three.two.one.nickschorr.com")
                           (lit "two.one.nickschorr.com") = Normal 1
  ∧ getSubdomainDifference (lit "two.one.nickschorr.com")
                           (lit "three.two.one.nickschorr.com") = Normal 1.
Proof. by vm_compute. Qed.

Example isValidInput_tests :
  (isValidInput (lit "") (lit "") []).1 = Normal false
  ∧ (isValidInput (lit "") (lit "nickschorr.com") []).1 = Normal false
  ∧ (isValidInput (lit "nickschorr.com") (lit "") []).1 = Normal false
  ∧ (isValidInput (lit "nickschorr.com") (lit "") rules_duplicate).1
    = Normal false
  ∧ (isValidInput (lit "nickschorr.com") (lit "") rules_cycle).1 = Normal false
  ∧ (isValidInput (lit "nickschorr.com") (lit "nickschorr.com/test/")
                  rules_valid).1 = Normal true
  ∧ (isValidInput (lit "one.nickschorr.com") (lit "nickschorr.com/test/")
                  rules_valid).1 = Normal true.
Proof. by vm_compute. Qed.

(** The end-to-end scenario of the specification. *)
Example validate_scenario :
  validate (lit "a.com") (lit "a.com/test/") [rule "a.com/path/" "a.com/path/test/"]
  = Normal Accepted.
Proof. by vm_compute. Qed.

End Tests.

(** * The claims of the specification *)

Section Claims.
Import Js Options Spec Fixtures.
Implicit Types (source destination url id s : jsstring) (rules : list Rule).

(** A proposition decided by evaluation. *)
Local Ltac by_evaluation :=
  match goal with
  | |- ?P => apply (bool_decide_unpack P); vm_compute; exact I
  end.

(** C1: [validate] applies its checks in strict order and the first
    failing check gives the outcome: [Rejected Empty] when source or
    destination has no non-whitespace character, else
    [Rejected DuplicateSource] when a rule has the source as [src], else
    [Rejected Cycle] when a rule has it as [dest], else an advisory when the
    subdomain difference is positive, else [Accepted].  In particular two
    empty strings are rejected as empty, and so is every whitespace-only
    source, whatever the other arguments. *)
Theorem validate_strict_order :
  (∀ source destination rules,
     ∃ delta,
       getSubdomainDifference source destination = Normal delta
       ∧ validate source destination rules =
           Normal (checks source destination rules delta))
  ∧ validate (lit "") (lit "") [] = Normal (Rejected Empty)
  ∧ (∀ source destination rules,
       blank source →
       validate source destination rules = Normal (Rejected Empty)).
Proof.
  split; [|split].
  - intros source destination rules.
    destruct (getSubdomainDifference_total source destination) as [delta Hd].
    exists delta. split; [done|]. by apply validate_checks.
  - by vm_compute.
  - intros source destination rules Hblank.
    destruct (getSubdomainDifference_total source destination) as [delta Hd].
    rewrite (validate_checks _ _ _ _ Hd). unfold checks.
    by rewrite decide_True by auto.
Qed.

(** C2, as the specification states it, fails: on "/a" the specification's
    [stripPath] cuts before the leading "/" and gives the empty string,
    while [getDomain] returns "/a" (the expression for the path wants a
    character before the "/").  Likewise "a//" gives "a" where the
    specification gives the empty string (the expression for the protocol
    wants a character after the "//"), and a line feed stops [.]: "a", line
    feed, "b/c" gives "b".  On "http://a.com" the result is the whole
    input. *)
Lemma getDomain_not_stripPath_stripProtocol :
  (getDomain (lit "/a") = Normal (lit "/a")
   ∧ stripPath (stripProtocol (lit "/a")) = lit "")
  ∧ (getDomain (lit "a//") = Normal (lit "a")
     ∧ stripPath (stripProtocol (lit "a//")) = lit "")
  ∧ (getDomain (lit "a" ++ [10%N] ++ lit "b/c") = Normal (lit "b")
     ∧ stripPath (stripProtocol (lit "a" ++ [10%N] ++ lit "b/c"))
       = lit "a" ++ [10%N] ++ lit "b")
  ∧ (getDomain (lit "http://a.com") = Normal (lit "http://a.com")
     ∧ stripPath (stripProtocol (lit "http://a.com")) = lit "a.com")
  ∧ ¬ (∀ input, getDomain input = Normal (stripPath (stripProtocol input))).
Proof.
  repeat (split; [by vm_compute|]).
  intros Hall. by specialize (Hall (lit "/a")).
Qed.

(** C2, amended: on an input without line terminator, [getDomain] is
    [beforePath] after [afterProtocol] (everything after the first "//"
    that a character follows; then everything before the first "/" that
    is not the first character), whenever [afterProtocol] left the input
    unchanged or [beforePath] found a "/" to cut at.  [getDomain] of the
    empty string is the empty string. *)
Theorem getDomain_normalizes url :
  Forall (λ c, isLineTerminator c = false) url →
  afterProtocol url = url
  ∨ beforePath (afterProtocol url) ≠ afterProtocol url →
  getDomain url = Normal (beforePath (afterProtocol url))
  ∧ getDomain (lit "") = Normal (lit "").
Proof.
  intros Hlt Hcase. split; [|by vm_compute].
  assert (Hnl : Forall (λ c, notLineTerminator c = true) url).
  { eapply Forall_impl; [exact Hlt|]. intros c Hc.
    unfold notLineTerminator. by rewrite Hc. }
  rewrite getDomain_find, (afterProtocol_find _ Hnl).
  destruct (beforePath_find (afterProtocol url)) as [[Hnone Hsame]| ->].
  - by apply afterProtocol_Forall.
  - rewrite Hnone. cbn [default]. rewrite Hsame.
    destruct Hcase as [Hunchanged|Hcut]; [by rewrite Hunchanged|done].
  - done.
Qed.

Lemma getDomain_normalizes_witness :
  getDomain (lit "http://one.nickschorr.com/path/") =
    Normal (beforePath (afterProtocol (lit "http://one.nickschorr.com/path/")))
  ∧ getDomain (lit "") = Normal (lit "").
Proof.
  apply getDomain_normalizes.
  - by_evaluation.
  - right. by vm_compute.
Defined.

(** When a protocol was stripped and no "/" follows, [getDomain] falls
    back on the whole input, protocol included. *)
Lemma getDomain_fallback url :
  Forall (λ c, isLineTerminator c = false) url →
  beforePath (afterProtocol url) = afterProtocol url →
  getDomain url = Normal url.
Proof.
  intros Hlt Hsame.
  assert (Hnl : Forall (λ c, notLineTerminator c = true) url).
  { eapply Forall_impl; [exact Hlt|]. intros c Hc.
    unfold notLineTerminator. by rewrite Hc. }
  rewrite getDomain_find, (afterProtocol_find _ Hnl).
  destruct (beforePath_find (afterProtocol url)) as [[Hnone _]|Hsome].
  - by apply afterProtocol_Forall.
  - by rewrite Hnone.
  - rewrite Hsome, Hsame. cbn [default].
    pose proof (findPath_indexOf (afterProtocol url)
                  (afterProtocol_Forall _ _ Hnl)) as Hfind.
    rewrite Hsome in Hfind. unfold beforePath in Hsame.
    destruct (afterProtocol url) as [|c rest] eqn:Hafter; [done|].
    destruct (indexOf (lit "/") rest) as [i|] eqn:Hi; [|done].
    apply indexOf_lt in Hi. cbn in Hi.
    apply (f_equal length) in Hsame. cbn in Hsame.
    rewrite length_take in Hsame. lia.
Qed.

Example getDomain_keeps_protocol :
  getDomain (lit "http://nickschorr.com") = Normal (lit "http://nickschorr.com").
Proof. by vm_compute. Qed.

(** C3: the subdomain difference is the reference computation of the
    specification: with both strings normalized by [getDomain], [longer]
    the one of greater or equal length and [shorter] the other, the first
    occurrence of [shorter] is removed from [longer]; the delta is 0 when
    the length did not change and the number of "." left otherwise.  The
    four examples of the specification report 1, 1, 0 and 5. *)
Theorem getSubdomainDifference_reference :
  (∀ source destination,
     ∃ a b,
       getDomain source = Normal a
       ∧ getDomain destination = Normal b
       ∧ ∀ longer shorter,
           longer_shorter a b longer shorter →
           getSubdomainDifference source destination =
             Normal (residualDelta longer shorter))
  ∧ validate (lit "one.nickschorr.com") (lit "nickschorr.com") [] =
      Normal (AcceptedWithAdvisory 1)
  ∧ validate (lit "nickschorr.com") (lit "one.nickschorr.com") [] =
      Normal (AcceptedWithAdvisory 1)
  ∧ getSubdomainDifference (lit "one.x.com") (lit "two.x.com") = Normal 0
  ∧ validate (lit "one.x.com") (lit "two.x.com") [] = Normal Accepted
  ∧ validate (lit "one.two.three.four.five.nickschorr.com")
             (lit "nickschorr.com") [] =
      Normal (AcceptedWithAdvisory 5).
Proof.
  split; [|by vm_compute].
  intros source destination.
  destruct (getDomain_total source) as [a Ha].
  destruct (getDomain_total destination) as [b Hb].
  exists a, b. split; [done|]. split; [done|].
  intros longer shorter [Hwhich Hlen].
  rewrite (getSubdomainDifference_residual _ _ _ _ Ha Hb).
  destruct Hwhich as [[-> ->]|[-> ->]]; case_bool_decide; try done.
  by rewrite !residualDelta_same_length by lia.
Qed.

(** C9: the subdomain difference is symmetric in its two arguments, and it
    is 0 whenever the two normalized strings have the same length. *)
Theorem getSubdomainDifference_sym :
  (∀ a b, getSubdomainDifference a b = getSubdomainDifference b a)
  ∧ (∀ a b domain_a domain_b,
       getDomain a = Normal domain_a →
       getDomain b = Normal domain_b →
       length domain_a = length domain_b →
       getSubdomainDifference a b = Normal 0).
Proof.
  split.
  - intros a b.
    destruct (getDomain_total a) as [da Ha].
    destruct (getDomain_total b) as [db Hb].
    rewrite (getSubdomainDifference_residual _ _ _ _ Ha Hb).
    rewrite (getSubdomainDifference_residual _ _ _ _ Hb Ha).
    do 2 case_bool_decide; try done; [|lia].
    by rewrite !residualDelta_same_length by lia.
  - intros a b da db Ha Hb Hlen.
    rewrite (getSubdomainDifference_residual _ _ _ _ Ha Hb).
    case_bool_decide; by rewrite residualDelta_same_length.
Qed.

Lemma getSubdomainDifference_sym_witness :
  getSubdomainDifference (lit "one.x.com") (lit "http://two.x.com/") = Normal 0.
Proof.
  apply (proj2 getSubdomainDifference_sym _ _ (lit "one.x.com") (lit "two.x.com"));
    by vm_compute.
Defined.

(** C4, as the specification states it, fails: with the empty destination
    of the test suite the emptiness check comes first, although a rule has
    the candidate as its source. *)
Lemma duplicate_source_empty_destination :
  has_field "src" (lit "nickschorr.com") rules_duplicate
  ∧ validate (lit "nickschorr.com") (lit "") rules_duplicate =
      Normal (Rejected Empty).
Proof. split; [by_evaluation|by vm_compute]. Qed.

(** C4, amended: when source and destination each have a non-whitespace
    character and a rule has the candidate source as its [src], by raw
    string equality, [validate] returns [Rejected DuplicateSource],
    whatever the destination. *)
Theorem duplicate_source_rejected source destination rules :
  ¬ blank source →
  ¬ blank destination →
  has_field "src" source rules →
  validate source destination rules = Normal (Rejected DuplicateSource).
Proof.
  intros Hs Hd Hsrc.
  destruct (getSubdomainDifference_total source destination) as [delta Hdelta].
  rewrite (validate_checks _ _ _ _ Hdelta). unfold checks.
  rewrite decide_False by (by intros [?|?]).
  by rewrite decide_True.
Qed.

Lemma duplicate_source_rejected_witness :
  validate (lit "nickschorr.com") (lit "nickschorr.com/test/") rules_duplicate =
    Normal (Rejected DuplicateSource).
Proof. apply duplicate_source_rejected; by_evaluation. Defined.

(** C5, as the specification states it, fails: with the empty destination
    of the test suite the outcome is [Rejected Empty], although a rule has
    the candidate source as its destination and none has it as source. *)
Lemma cycle_empty_destination :
  has_field "dest" (lit "nickschorr.com") rules_cycle
  ∧ ¬ has_field "src" (lit "nickschorr.com") rules_cycle
  ∧ validate (lit "nickschorr.com") (lit "") rules_cycle =
      Normal (Rejected Empty).
Proof. split; [by_evaluation|]. split; [by_evaluation|by vm_compute]. Qed.

(** C5, amended: when source and destination each have a non-whitespace
    character and no rule has the candidate source as its [src], a rule
    that has it as [dest], by raw string equality, makes [validate] return
    [Rejected Cycle], whatever the destination; and [Rejected Cycle] is
    returned only when such a rule exists: the check is this direct match,
    no chain of rules is followed. *)
Theorem cycle_rejected source destination rules :
  (¬ blank source →
   ¬ blank destination →
   ¬ has_field "src" source rules →
   has_field "dest" source rules →
   validate source destination rules = Normal (Rejected Cycle))
  ∧ (validate source destination rules = Normal (Rejected Cycle) →
     has_field "dest" source rules).
Proof.
  destruct (getSubdomainDifference_total source destination) as [delta Hdelta].
  rewrite (validate_checks _ _ _ _ Hdelta). unfold checks. split.
  - intros Hs Hd Hsrc Hdest.
    rewrite decide_False by (by intros [?|?]).
    rewrite decide_False by done. by rewrite decide_True.
  - repeat case_decide; done.
Qed.

Lemma cycle_rejected_witness :
  validate (lit "nickschorr.com") (lit "nickschorr.com/test/") rules_cycle =
    Normal (Rejected Cycle).
Proof. apply (proj1 (cycle_rejected _ _ _)); by_evaluation. Defined.

Lemma getButtonIndex_firstDigits id :
  getButtonIndex id =
    Normal match firstDigits id with
           | [] => None
           | digits => Some (toNumber (mathInt digits))
           end.
Proof.
  unfold getButtonIndex, String_match.
  pose proof (exec_digits id) as Hexec.
  assert (Hall : Forall (λ c, isDigit c = true) (firstDigits id))
    by apply takeWhile_Forall.
  destruct (exec re_digits id) as [a|]; cbn in Hexec |- *.
  - destruct (firstDigits id) as [|c digits] eqn:Hrun; [done|].
    injection Hexec as ->. by rewrite parseInt_digits.
  - by destruct (firstDigits id).
Qed.

Lemma mathInt_bound digits :
  Forall (λ c, isDigit c = true) digits →
  mathInt digits < 10 ^ Z.of_nat (length digits).
Proof.
  intros Hall. unfold mathInt.
  assert (Hacc : ∀ acc, 0 ≤ acc →
            foldl (λ acc d, 10 * acc + (Z.of_N d - 48)) acc digits
            < (acc + 1) * 10 ^ Z.of_nat (length digits)).
  { induction Hall as [|c digits Hc _ IH]; intros acc Hn; cbn [foldl length].
    - rewrite Z.pow_0_r. lia.
    - unfold isDigit in Hc.
      apply andb_true_iff in Hc as [Hlo%N.leb_le Hhi%N.leb_le].
      rewrite Nat2Z.inj_succ, Z.pow_succ_r by lia.
      eapply Z.lt_le_trans; [apply IH; lia|].
      assert (0 < 10 ^ Z.of_nat (length digits)) by (apply Z.pow_pos_nonneg; lia).
      nia. }
  specialize (Hacc 0). lia.
Qed.

(** The claim C6 as the specification words it fails on long runs of
    digits: the 16 digits of [x9007199254740993] are read as
    9007199254740992, and a run of 310 digits is read as the positive
    infinity, which is no integer. *)
Theorem parseTrailingIndex_not_the_integer :
  parseTrailingIndex (lit "x9007199254740993")
    = Normal (Some (Int 9007199254740992))
  ∧ parseTrailingIndex (lit "x" ++ replicate 310 (chr "9"))
    = Normal (Some (Infinity false)).
Proof. split; by vm_compute. Qed.

(** C6 (amended): [parseTrailingIndex] takes the first run of decimal
    digits found anywhere in the identifier and returns the Number for the
    integer the run denotes: that integer itself when it is below 2^53, as
    it is for every run of up to 15 digits; in every case a non-negative
    integer or the positive infinity, and the positive infinity from
    2^1024 on.  It returns none when the identifier has no digit.  The
    four examples of the specification give 0, 999, none and none. *)
Theorem parseTrailingIndex_first_digits :
  (∀ id,
     parseTrailingIndex id =
       Normal match firstDigits id with
              | [] => None
              | digits => Some (toNumber (mathInt digits))
              end
     ∧ (mathInt (firstDigits id) < 2 ^ 53 →
        toNumber (mathInt (firstDigits id)) = Int (mathInt (firstDigits id)))
     ∧ ((length (firstDigits id) ≤ 15)%nat → mathInt (firstDigits id) < 2 ^ 53)
     ∧ (toNumber (mathInt (firstDigits id)) = Infinity false
        ∨ ∃ n, 0 ≤ n ∧ toNumber (mathInt (firstDigits id)) = Int n)
     ∧ (2 ^ 1024 ≤ mathInt (firstDigits id) →
        toNumber (mathInt (firstDigits id)) = Infinity false)
     ∧ ∃ pre post,
         id = pre ++ firstDigits id ++ post
         ∧ Forall (λ c, isDigit c = false) pre
         ∧ Forall (λ c, isDigit c = true) (firstDigits id)
         ∧ (∀ c, head post = Some c → isDigit c = false))
  ∧ parseTrailingIndex (lit "deleteRuleButton-0") = Normal (Some (Int 0))
  ∧ parseTrailingIndex (lit "deleteRuleButton-999") = Normal (Some (Int 999))
  ∧ parseTrailingIndex (lit "deleteRuleButton-") = Normal None
  ∧ parseTrailingIndex (lit "") = Normal None.
Proof.
  split; [|by vm_compute].
  intros id.
  assert (Hall : Forall (λ c, isDigit c = true) (firstDigits id))
    by apply takeWhile_Forall.
  pose proof (mathInt_nonneg _ Hall) as Hnonneg.
  split; [apply getButtonIndex_firstDigits|].
  split; [intros Hlt; apply toNumber_exact; lia|].
  split.
  { intros Hlen. eapply Z.lt_le_trans; [by apply mathInt_bound|].
    etrans; [apply (Z.pow_le_mono_r 10 _ 15); lia|]. by vm_compute. }
  split; [by apply toNumber_nonneg|].
  split; [apply toNumber_infinite|].
  apply firstDigits_run.
Qed.

(** C7: the duplicate and cycle checks compare raw strings.  When a rule
    has the trimmed string [s] as source and the candidate is [s] with
    white space added in front or behind, raw-equal to no stored source or
    destination, [validate] returns neither [Rejected DuplicateSource] nor
    [Rejected Cycle], although trimming the candidate, as is done before a
    rule is stored, gives [s] again. *)
Theorem padded_duplicate_not_detected s pre post source destination rules :
  has_field "src" s rules →
  trim s = s →
  blank pre →
  blank post →
  source = pre ++ s ++ post →
  source ≠ s →
  ¬ has_field "src" source rules →
  ¬ has_field "dest" source rules →
  validate source destination rules ≠ Normal (Rejected DuplicateSource)
  ∧ validate source destination rules ≠ Normal (Rejected Cycle)
  ∧ trim source = s.
Proof.
  intros _ Htrim Hpre Hpost -> _ Hsrc Hdest.
  destruct (getSubdomainDifference_total (pre ++ s ++ post) destination)
    as [delta Hdelta].
  rewrite (validate_checks _ _ _ _ Hdelta). unfold checks.
  split; [|split]; [| |by apply trim_padded].
  - repeat case_decide; done.
  - repeat case_decide; done.
Qed.

Lemma padded_duplicate_not_detected_witness :
  validate (lit " nickschorr.com") (lit "nickschorr.com/test/") rules_duplicate
    ≠ Normal (Rejected DuplicateSource)
  ∧ validate (lit " nickschorr.com") (lit "nickschorr.com/test/") rules_duplicate
    ≠ Normal (Rejected Cycle)
  ∧ trim (lit " nickschorr.com") = lit "nickschorr.com".
Proof.
  apply (padded_duplicate_not_detected (lit "nickschorr.com") (lit " ") []);
    first [by vm_compute | by_evaluation].
Defined.

(** What [storeRule] then stores: a second rule with the same source. *)
Example storeRule_padded_duplicate :
  storeRule (lit " a.com") (lit "c.com ") false (Some [rule "a.com" "b.com"]) =
    [ rule "a.com" "b.com";
      <["regex" := VBool false]> (rule "a.com" "c.com") ].
Proof. by vm_compute. Qed.

(** The claim C8 as the specification words it fails in its last part:
    on an identifier with a run of 400 digits [parseTrailingIndex] returns
    neither none nor an integer, but the positive infinity. *)
Theorem parseTrailingIndex_infinite :
  parseTrailingIndex (lit "deleteRuleButton-" ++ replicate 400 (chr "1"))
    = Normal (Some (Infinity false)).
Proof. by vm_compute. Qed.

(** C8 (amended): every operation of the engine is total on strings:
    [getDomain], [getSubdomainDifference] and [validate] end normally with
    a result, no exception is raised, and [parseTrailingIndex] ends
    normally with none or with a Number that is a non-negative integer or
    the positive infinity. *)
Theorem engine_total :
  ∀ url source destination rules id,
    (∃ domain, getDomain url = Normal domain)
    ∧ (∃ delta, getSubdomainDifference source destination = Normal delta)
    ∧ (∃ outcome, validate source destination rules = Normal outcome)
    ∧ (parseTrailingIndex id = Normal None
       ∨ parseTrailingIndex id = Normal (Some (Infinity false))
       ∨ ∃ n, 0 ≤ n ∧ parseTrailingIndex id = Normal (Some (Int n))).
Proof.
  intros url source destination rules id.
  split; [apply getDomain_total|].
  split; [apply getSubdomainDifference_total|].
  split.
  - destruct (getSubdomainDifference_total source destination) as [delta Hd].
    rewrite (validate_checks _ _ _ _ Hd). eauto.
  - unfold parseTrailingIndex. rewrite getButtonIndex_firstDigits.
    pose proof (mathInt_nonneg (firstDigits id) (takeWhile_Forall _ _)) as Hn.
    destruct (firstDigits id) as [|c digits]; [by left|right].
    destruct (toNumber_nonneg _ Hn) as [->|(n & Hpos & ->)]; eauto.
Qed.

(** C10: the outcome does not depend on the [regex] field of the rules:
    two lists whose rules agree once that field is removed (it may differ
    in value or be absent on one side) give the same outcome, and the same
    result and notifications of [isValidInput]. *)
Theorem validate_regex_independent source destination rules1 rules2 :
  Forall2 (λ r1 r2 : Rule, delete "regex" r1 = delete "regex" r2) rules1 rules2 →
  validate source destination rules1 = validate source destination rules2
  ∧ isValidInput source destination rules1 =
      isValidInput source destination rules2.
Proof.
  intros Hrules.
  assert (Hsame : isValidInput source destination rules1 =
                  isValidInput source destination rules2).
  { unfold isValidInput.
    rewrite (some_hasValue_regex "src" _ _ _ ltac:(done) Hrules).
    by rewrite (some_hasValue_regex "dest" _ _ _ ltac:(done) Hrules). }
  split; [|done]. unfold validate. by rewrite Hsame.
Qed.

Lemma validate_regex_independent_witness :
  validate (lit "b.com") (lit "c.com")
           [<["regex" := VBool true]> (rule "a.com" "b.com"); rule "x.com" "y.com"]
  = validate (lit "b.com") (lit "c.com")
           [rule "a.com" "b.com"; <["regex" := VBool false]> (rule "x.com" "y.com")]
  ∧ isValidInput (lit "b.com") (lit "c.com")
           [<["regex" := VBool true]> (rule "a.com" "b.com"); rule "x.com" "y.com"]
  = isValidInput (lit "b.com") (lit "c.com")
           [rule "a.com" "b.com"; <["regex" := VBool false]> (rule "x.com" "y.com")].
Proof.
  apply validate_regex_independent.
  repeat constructor; by vm_compute.
Defined.

End Claims.

(** * Further properties of options.js *)

(** A decidable proposition, decided by evaluation. *)
Ltac evaluated :=
  match goal with
  | |- ?P => apply (bool_decide_unpack P); vm_compute; exact I
  end.

(** ** getDomain *)

Section GetDomainMore.
Import Js Options Spec.
Implicit Types (s url host rest : jsstring).

(** A string the expression for the path can capture: a first character,
    then characters other than "/", none of them a line terminator. *)
Let captured (g : jsstring) : Prop :=
  ∃ c body,
    g = c :: body
    ∧ notLineTerminator c = true
    ∧ Forall (λ x, notLineTerminator x = true ∧ x ≠ chr "/") body.

Lemma indexOf_no_slash s :
  Forall (λ x, x ≠ chr "/") s → indexOf (lit "/") s = None.
Proof.
  induction 1 as [|c s Hc _ IH]; [done|].
  rewrite indexOf_slash_cons, IH.
  by destruct (N.eqb_spec (chr "/") c).
Qed.

Lemma lazyEnd_no_slash s : indexOf (lit "/") s = None → lazyEnd s = None.
Proof.
  induction s as [|c s IH]; [done|].
  rewrite indexOf_slash_cons.
  destruct (chr "/" =? c)%N; [done|].
  destruct (indexOf (lit "/") s) as [i|] eqn:Hi; [done|]. intros _.
  destruct s as [|c' s]; [by cbn; destruct (notLineTerminator c)|].
  change (lazyEnd (c :: c' :: s))
    with (if notLineTerminator c
          then if (chr "/" =? c')%N then Some (c' :: s) else lazyEnd (c' :: s)
          else None).
  rewrite indexOf_slash_cons in Hi.
  destruct (notLineTerminator c); [|done].
  destruct (chr "/" =? c')%N; [done|]. by apply IH.
Qed.

Lemma lazyEnd_split s s1 :
  lazyEnd s = Some s1 →
  ∃ c body,
    s = c :: body ++ s1
    ∧ notLineTerminator c = true
    ∧ Forall (λ x, notLineTerminator x = true ∧ x ≠ chr "/") body
    ∧ head s1 = Some (chr "/").
Proof.
  revert s1. induction s as [|c s IH]; intros s1; [done|].
  destruct s as [|c' s]; [by cbn; destruct (notLineTerminator c)|].
  change (lazyEnd (c :: c' :: s))
    with (if notLineTerminator c
          then if (chr "/" =? c')%N then Some (c' :: s) else lazyEnd (c' :: s)
          else None).
  destruct (notLineTerminator c) eqn:Hc; [|done].
  destruct (N.eqb_spec (chr "/") c') as [<-|Hc'].
  - intros [= <-]. exists c, []. by repeat split.
  - intros Hend. destruct (IH _ Hend) as (c2 & body & Heq & Hc2 & Hbody & Hhead).
    injection Heq as <- ->.
    exists c, (c' :: body). repeat split; try done.
    constructor; [|done]. split; [done|]. by intros ->.
Qed.

Lemma findPath_captured s g :
  findPath s = Some g → captured g ∧ ∃ pre post, s = pre ++ g ++ post.
Proof.
  revert g. induction s as [|c s IH]; intros g; [done|].
  cbn [findPath].
  destruct (lazyEnd (c :: s)) as [s1|] eqn:Hend.
  - intros [= <-].
    destruct (lazyEnd_split _ _ Hend) as (c1 & body & Heq & Hc1 & Hbody & _).
    injection Heq as -> ->. cbn [length].
    rewrite length_app.
    replace (S (length body + length s1) - length s1)%nat
      with (S (length body)) by lia.
    cbn [take]. rewrite take_app_length. split.
    + by exists c1, body.
    + by exists [], s1.
  - intros Hfind. destruct (IH _ Hfind) as [Hg (pre & post & ->)].
    split; [done|]. by exists (c :: pre), post.
Qed.

Lemma findProtocol_infix s g :
  findProtocol s = Some g → ∃ pre post, s = pre ++ g ++ post.
Proof.
  revert g. induction s as [|c1 s IH]; intros g; [done|].
  assert (Hrec : findProtocol s = Some g → ∃ pre post, c1 :: s = pre ++ g ++ post).
  { intros Hfind. destruct (IH _ Hfind) as (pre & post & ->).
    by exists (c1 :: pre), post. }
  cbn [findProtocol].
  destruct s as [|c2 [|c3 s]]; [done|by apply Hrec|].
  destruct (_ && _ && _); [|by apply Hrec].
  intros [= <-].
  exists [c1; c2], (dropWhile notLineTerminator (c3 :: s)).
  change (c1 :: c2 :: c3 :: s =
          [c1; c2] ++ takeWhile notLineTerminator (c3 :: s)
                   ++ dropWhile notLineTerminator (c3 :: s)).
  by rewrite takeWhile_dropWhile.
Qed.

Lemma findProtocol_cons c1 s :
  findProtocol (c1 :: s) =
    match s with
    | c2 :: c3 :: _ =>
        if (chr "/" =? c1)%N && (chr "/" =? c2)%N && notLineTerminator c3
        then Some (takeWhile notLineTerminator (drop 1 s))
        else findProtocol s
    | _ => findProtocol s
    end.
Proof. by destruct s as [|c2 [|c3 s]]. Qed.

Lemma findProtocol_no_slash c s :
  Forall (λ x, x ≠ chr "/") s → findProtocol (c :: s) = None.
Proof.
  intros Hs. revert c. induction Hs as [|c2 s Hc2 _ IH]; intros c; [done|].
  rewrite findProtocol_cons.
  destruct s as [|c3 s]; [apply IH|].
  destruct (N.eqb_spec (chr "/") c2) as [<-|_]; [done|].
  rewrite andb_false_r. cbn [andb]. apply IH.
Qed.

Lemma captured_findPath g : captured g → findPath g = None.
Proof.
  intros (c & body & -> & _ & Hbody).
  assert (Hslash : Forall (λ x, x ≠ chr "/") body).
  { eapply Forall_impl; [exact Hbody|]. by intros x [_ ?]. }
  pose proof (indexOf_no_slash _ Hslash) as Hindex.
  assert (Hend : lazyEnd (c :: body) = None).
  { destruct body as [|c' body]; [by cbn; destruct (notLineTerminator c)|].
    change (lazyEnd (c :: c' :: body))
      with (if notLineTerminator c
            then if (chr "/" =? c')%N then Some (c' :: body)
                 else lazyEnd (c' :: body)
            else None).
    rewrite (lazyEnd_no_slash _ Hindex).
    rewrite indexOf_slash_cons in Hindex.
    destruct (notLineTerminator c); [|done].
    by destruct (chr "/" =? c')%N. }
  cbn [findPath]. rewrite Hend.
  by rewrite (findPath_no_slash body).
Qed.

Lemma captured_fixed g : captured g → getDomain g = Normal g.
Proof.
  intros Hg. rewrite getDomain_find.
  destruct Hg as (c & body & -> & Hc & Hbody).
  assert (Hslash : Forall (λ x, x ≠ chr "/") body).
  { eapply Forall_impl; [exact Hbody|]. by intros x [_ ?]. }
  rewrite (findProtocol_no_slash _ _ Hslash). cbn [default].
  by rewrite captured_findPath by by exists c, body.
Qed.

Lemma takeWhile_app_all p (s1 s2 : jsstring) :
  Forall (λ c, p c = true) s1 → takeWhile p (s1 ++ s2) = s1 ++ takeWhile p s2.
Proof. induction 1 as [|c s Hc _ IH]; cbn; [done|]. by rewrite Hc, IH. Qed.

Lemma findProtocol_skip c s : c ≠ chr "/" → findProtocol (c :: s) = findProtocol s.
Proof.
  intros Hc. rewrite findProtocol_cons.
  destruct (N.eqb_spec (chr "/") c) as [<-|_]; [done|].
  by destruct s as [|c2 [|c3 s]].
Qed.

Lemma findProtocol_no_double s :
  indexOf (lit "//") s = None → findProtocol s = None.
Proof.
  induction s as [|c1 s IH]; [done|].
  change (indexOf (lit "//") (c1 :: s))
    with (if startsWith (lit "//") (c1 :: s) then Some O
          else S <$> indexOf (lit "//") s).
  destruct (startsWith (lit "//") (c1 :: s)) eqn:Hstart; [done|].
  destruct (indexOf (lit "//") s) as [i|]; [done|]. intros _.
  rewrite findProtocol_cons, IH by done.
  destruct s as [|c2 [|c3 s]]; [done|done|].
  change (startsWith (lit "//") (c1 :: c2 :: c3 :: s))
    with ((chr "/" =? c1)%N && ((chr "/" =? c2)%N && true)) in Hstart.
  rewrite andb_true_r in Hstart. by rewrite Hstart.
Qed.

(** What the two expressions find in [prefix//host/rest]. *)
Lemma findProtocol_prefix prefix host rest :
  Forall (λ x, x ≠ chr "/") prefix →
  host ≠ [] →
  Forall (λ x, notLineTerminator x = true ∧ x ≠ chr "/") host →
  findProtocol (prefix ++ lit "//" ++ host ++ rest) =
    Some (host ++ takeWhile notLineTerminator rest).
Proof.
  intros Hprefix Hne Hhost.
  induction Hprefix as [|c prefix Hc _ IH].
  - destruct host as [|h host]; [done|].
    apply Forall_cons in Hhost as [[Hh _] Hhost].
    change ([] ++ lit "//" ++ (h :: host) ++ rest)
      with (chr "/" :: chr "/" :: h :: host ++ rest).
    rewrite findProtocol_cons. rewrite Hh. cbn [andb N.eqb Pos.eqb chr].
    change (drop 1 (chr "/" :: h :: host ++ rest)) with ((h :: host) ++ rest).
    rewrite takeWhile_app_all; [done|].
    constructor; [done|]. eapply Forall_impl; [exact Hhost|]. by intros x [? _].
  - cbn [app]. by rewrite findProtocol_skip.
Qed.

Lemma findPath_host host rest :
  host ≠ [] →
  Forall (λ x, notLineTerminator x = true ∧ x ≠ chr "/") host →
  findPath (host ++ lit "/" ++ rest) = Some host.
Proof.
  intros Hne Hhost.
  assert (Hend : lazyEnd (host ++ lit "/" ++ rest) = Some (lit "/" ++ rest)).
  { destruct host as [|h host]; [done|]. clear Hne.
    revert h Hhost. induction host as [|h2 host IH]; intros h Hhost.
    - apply Forall_cons in Hhost as [[Hh _] _]. cbn. by rewrite Hh.
    - apply Forall_cons in Hhost as [[Hh _] Hhost].
      pose proof Hhost as Hhost2.
      apply Forall_cons in Hhost2 as [[_ Hh2] _].
      change (lazyEnd ((h :: h2 :: host) ++ lit "/" ++ rest))
        with (if notLineTerminator h
              then if (chr "/" =? h2)%N
                   then Some ((h2 :: host) ++ lit "/" ++ rest)
                   else lazyEnd ((h2 :: host) ++ lit "/" ++ rest)
              else None).
      rewrite Hh. destruct (N.eqb_spec (chr "/") h2) as [Heq|_]; [done|].
      by apply IH. }
  destruct host as [|h host]; [done|].
  change (findPath ((h :: host) ++ lit "/" ++ rest))
    with (match lazyEnd ((h :: host) ++ lit "/" ++ rest) with
          | Some s1 =>
              Some (take (length ((h :: host) ++ lit "/" ++ rest) - length s1)
                         ((h :: host) ++ lit "/" ++ rest))
          | None => findPath (host ++ lit "/" ++ rest)
          end).
  rewrite Hend. f_equal.
  rewrite length_app, Nat.add_sub. by rewrite take_app_length.
Qed.

(** X1: [getDomain] is idempotent: normalizing a normalized string
    changes nothing, for every string. *)
Theorem getDomain_idempotent url :
  ∃ domain, getDomain url = Normal domain ∧ getDomain domain = Normal domain.
Proof.
  pose proof (getDomain_find url) as Hfind.
  destruct (findPath (default url (findProtocol url))) as [g|] eqn:Hpath.
  - exists g. split; [done|].
    apply captured_fixed. by apply findPath_captured in Hpath as [? _].
  - exists url. by rewrite Hfind.
Qed.

Lemma getDomain_piece url :
  ∃ domain pre post,
    getDomain url = Normal domain
    ∧ url = pre ++ domain ++ post
    ∧ (length domain ≤ length url)%nat.
Proof.
  assert (Hlen : ∀ domain pre post : jsstring,
            url = pre ++ domain ++ post → (length domain ≤ length url)%nat).
  { intros domain pre post ->. rewrite !length_app. lia. }
  rewrite getDomain_find.
  destruct (findPath (default url (findProtocol url))) as [g|] eqn:Hpath.
  - apply findPath_captured in Hpath as [_ (pre & post & Hnp)].
    destruct (findProtocol url) as [np|] eqn:Hprotocol; cbn in Hnp.
    + apply findProtocol_infix in Hprotocol as (pre' & post' & Hurl).
      exists g, (pre' ++ pre), (post ++ post').
      assert (url = (pre' ++ pre) ++ g ++ post ++ post').
      { rewrite Hurl, Hnp. by rewrite <-!app_assoc. }
      eauto.
    + exists g, pre, post. eauto.
  - exists url, [], []. cbn [default app]. rewrite app_nil_r. eauto.
Qed.

(** X2: the result of [getDomain] is a contiguous piece of its input: no
    character is added or changed, and the result is never longer. *)
Theorem getDomain_substring url :
  ∃ domain pre post,
    getDomain url = Normal domain
    ∧ url = pre ++ domain ++ post
    ∧ (length domain ≤ length url)%nat.
Proof. apply getDomain_piece. Qed.

(** X3: on [prefix//host/rest], where the prefix (a scheme and its colon)
    has no "/" and the host is a non-empty run of characters other than
    "/" and line terminators, [getDomain] returns the host, whatever
    follows. *)
Theorem getDomain_host prefix host rest :
  Forall (λ x, x ≠ chr "/") prefix →
  host ≠ [] →
  Forall (λ x, isLineTerminator x = false ∧ x ≠ chr "/") host →
  getDomain (prefix ++ lit "//" ++ host ++ lit "/" ++ rest) = Normal host.
Proof.
  intros Hprefix Hne Hhost.
  assert (Hhost' : Forall (λ x, notLineTerminator x = true ∧ x ≠ chr "/") host).
  { eapply Forall_impl; [exact Hhost|]. intros x [Hx ?].
    unfold notLineTerminator. by rewrite Hx. }
  rewrite getDomain_find, findProtocol_prefix by done.
  cbn [default from_option id].
  change (takeWhile notLineTerminator (lit "/" ++ rest))
    with (lit "/" ++ takeWhile notLineTerminator rest).
  by rewrite (findPath_host host (takeWhile notLineTerminator rest)).
Qed.

Lemma getDomain_host_witness :
  getDomain (lit "https:" ++ lit "//" ++ lit "smile.amazon.com" ++ lit "/"
             ++ lit "gp/cart//view.html?ref=1")
  = Normal (lit "smile.amazon.com").
Proof. apply getDomain_host; evaluated. Defined.

(** X4: on [host/rest] with no "//" anywhere, [getDomain] returns the
    host (a non-empty run of characters other than "/" and line
    terminators). *)
Theorem getDomain_host_path host rest :
  host ≠ [] →
  Forall (λ x, isLineTerminator x = false ∧ x ≠ chr "/") host →
  indexOf (lit "//") (host ++ lit "/" ++ rest) = None →
  getDomain (host ++ lit "/" ++ rest) = Normal host.
Proof.
  intros Hne Hhost Hdouble.
  assert (Hhost' : Forall (λ x, notLineTerminator x = true ∧ x ≠ chr "/") host).
  { eapply Forall_impl; [exact Hhost|]. intros x [Hx ?].
    unfold notLineTerminator. by rewrite Hx. }
  rewrite getDomain_find, findProtocol_no_double by done.
  cbn [default from_option id]. by rewrite findPath_host.
Qed.

Lemma getDomain_host_path_witness :
  getDomain (lit "nickschorr.com" ++ lit "/" ++ lit "path/to/something/")
  = Normal (lit "nickschorr.com").
Proof. apply getDomain_host_path; evaluated. Defined.

(** X5: a string without any "/" is returned unchanged. *)
Theorem getDomain_no_slash url :
  Forall (λ x, x ≠ chr "/") url → getDomain url = Normal url.
Proof.
  intros Hslash. rewrite getDomain_find.
  destruct url as [|c url]; [done|].
  apply Forall_cons in Hslash as [Hc Hslash].
  rewrite (findProtocol_no_slash _ _ Hslash). cbn [default from_option id].
  rewrite findPath_no_slash; [done|].
  apply indexOf_no_slash. by constructor.
Qed.

Lemma getDomain_no_slash_witness :
  getDomain (lit "wow, this really isnt a URL at all!")
  = Normal (lit "wow, this really isnt a URL at all!").
Proof. apply getDomain_no_slash; evaluated. Defined.

(** X6: on [prefix//host] with nothing after the host, the protocol is not
    removed: the expression for the path finds no "/" behind the host and
    the function falls back on its whole argument. *)
Theorem getDomain_protocol_without_path prefix host :
  Forall (λ x, x ≠ chr "/") prefix →
  host ≠ [] →
  Forall (λ x, isLineTerminator x = false ∧ x ≠ chr "/") host →
  getDomain (prefix ++ lit "//" ++ host) = Normal (prefix ++ lit "//" ++ host).
Proof.
  intros Hprefix Hne Hhost.
  assert (Hhost' : Forall (λ x, notLineTerminator x = true ∧ x ≠ chr "/") host).
  { eapply Forall_impl; [exact Hhost|]. intros x [Hx ?].
    unfold notLineTerminator. by rewrite Hx. }
  pose proof (findProtocol_prefix prefix host [] Hprefix Hne Hhost') as Hfind.
  cbn [takeWhile] in Hfind. rewrite !app_nil_r in Hfind.
  rewrite getDomain_find, Hfind.
  cbn [default from_option id].
  rewrite captured_findPath; [done|].
  destruct host as [|h host]; [done|].
  apply Forall_cons in Hhost' as [[Hh _] Hhost'].
  by exists h, host.
Qed.

Lemma getDomain_protocol_without_path_witness :
  getDomain (lit "http:" ++ lit "//" ++ lit "one.nickschorr.com")
  = Normal (lit "http:" ++ lit "//" ++ lit "one.nickschorr.com").
Proof. apply getDomain_protocol_without_path; evaluated. Defined.

End GetDomainMore.

(** ** getSubdomainDifference *)

Section SubdomainDifferenceMore.
Import Js Options Spec.
Implicit Types (source destination longer shorter : jsstring).

Lemma countPeriods_app (s1 s2 : jsstring) :
  countPeriods (s1 ++ s2) = countPeriods s1 + countPeriods s2.
Proof. unfold countPeriods. rewrite filter_app, length_app. lia. Qed.

Lemma countPeriods_nonneg (s : jsstring) : 0 ≤ countPeriods s.
Proof. unfold countPeriods. lia. Qed.

(** [removeFirst] removes one occurrence when there is one. *)
Lemma removeFirst_occurs shorter longer :
  (∃ pre post, longer = pre ++ shorter ++ post) →
  ∃ pre post,
    longer = pre ++ shorter ++ post ∧ removeFirst shorter longer = pre ++ post.
Proof.
  induction longer as [|c longer IH]; intros (pre & post & Heq).
  - destruct pre; [|done]. destruct shorter; [|done]. destruct post; [|done].
    by exists [], [].
  - cbn [removeFirst].
    destruct (startsWith shorter (c :: longer)) eqn:Hstart.
    + apply startsWith_prefix in Hstart as [rest Hrest].
      exists [], rest. split; [done|].
      by rewrite Hrest, drop_app_length.
    + destruct pre as [|c' pre].
      * assert (startsWith shorter (c :: longer) = true); [|congruence].
        apply startsWith_prefix. by exists post.
      * injection Heq as <- Heq.
        destruct IH as (pre' & post' & Hl & Hr); [by exists pre, post|].
        exists (c :: pre'), post'. split; [by rewrite Hl|by rewrite Hr].
Qed.

(** [removeFirst] changes nothing when there is no occurrence. *)
Lemma removeFirst_absent shorter longer :
  ¬ (∃ pre post, longer = pre ++ shorter ++ post) →
  removeFirst shorter longer = longer.
Proof.
  induction longer as [|c longer IH]; intros Hno; cbn [removeFirst].
  - destruct (startsWith shorter []) eqn:Hstart; [|done].
    apply startsWith_prefix in Hstart as [rest Hrest].
    destruct Hno. by exists [], rest.
  - destruct (startsWith shorter (c :: longer)) eqn:Hstart.
    + apply startsWith_prefix in Hstart as [rest Hrest].
      destruct Hno. by exists [], rest.
    + rewrite IH; [done|]. intros (pre & post & ->).
      apply Hno. by exists (c :: pre), post.
Qed.

Lemma residualDelta_bounds longer shorter :
  0 ≤ residualDelta longer shorter ≤ countPeriods longer.
Proof.
  unfold residualDelta. case_bool_decide as Hlen.
  { pose proof (countPeriods_nonneg longer). lia. }
  split; [apply countPeriods_nonneg|].
  destruct (decide (removeFirst shorter longer = longer)) as [Hsame|Hdiff].
  { by rewrite Hsame in Hlen. }
  assert (Hocc : ∃ pre post, longer = pre ++ shorter ++ post).
  { destruct (startsWith shorter longer) eqn:Hs.
    - apply startsWith_prefix in Hs as [rest ->]. by exists [], rest.
    - clear Hlen. revert Hs Hdiff.
      induction longer as [|c longer IH]; cbn [removeFirst]; intros Hs Hdiff.
      + by rewrite Hs in Hdiff.
      + rewrite Hs in Hdiff.
        destruct (startsWith shorter longer) eqn:Hs'.
        * apply startsWith_prefix in Hs' as [rest ->]. by exists [c], rest.
        * destruct IH as (pre & post & ->); [done|congruence|].
          by exists (c :: pre), post. }
  destruct (removeFirst_occurs _ _ Hocc) as (pre & post & -> & ->).
  rewrite !countPeriods_app.
  pose proof (countPeriods_nonneg shorter). lia.
Qed.

(** The difference in terms of the longer and the shorter domain. *)
Lemma getSubdomainDifference_longer_shorter source destination a b longer shorter :
  getDomain source = Normal a →
  getDomain destination = Normal b →
  longer_shorter a b longer shorter →
  getSubdomainDifference source destination =
    Normal (residualDelta longer shorter).
Proof.
  intros Ha Hb [Hwhich Hlen].
  rewrite (getSubdomainDifference_residual _ _ _ _ Ha Hb).
  destruct Hwhich as [[-> ->]|[-> ->]]; case_bool_decide; try done.
  by rewrite !residualDelta_same_length by lia.
Qed.

(** X7: when the shorter of the two domains is not empty and occurs in the
    longer one, the difference is the number of periods of the longer
    domain minus that of the shorter. *)
Theorem getSubdomainDifference_periods source destination a b longer shorter :
  getDomain source = Normal a →
  getDomain destination = Normal b →
  longer_shorter a b longer shorter →
  shorter ≠ [] →
  (∃ pre post, longer = pre ++ shorter ++ post) →
  getSubdomainDifference source destination =
    Normal (countPeriods longer - countPeriods shorter).
Proof.
  intros Ha Hb Hls Hne Hocc.
  rewrite (getSubdomainDifference_longer_shorter _ _ _ _ _ _ Ha Hb Hls).
  f_equal. unfold residualDelta.
  destruct (removeFirst_occurs _ _ Hocc) as (pre & post & -> & ->).
  rewrite bool_decide_eq_false_2.
  - rewrite !countPeriods_app. lia.
  - rewrite !length_app. destruct shorter; [done|]. cbn. lia.
Qed.

Lemma getSubdomainDifference_periods_witness :
  getSubdomainDifference (lit "http://nickschorr.com/about")
                         (lit "one.two.nickschorr.com")
  = Normal (countPeriods (lit "one.two.nickschorr.com")
            - countPeriods (lit "nickschorr.com")).
Proof.
  apply (getSubdomainDifference_periods _ _
           (lit "nickschorr.com") (lit "one.two.nickschorr.com")).
  - by vm_compute.
  - by vm_compute.
  - split; [by right|evaluated].
  - done.
  - by exists (lit "one.two."), [].
Defined.

(** X8: when the shorter domain is empty or does not occur in the longer
    one, the difference is 0. *)
Theorem getSubdomainDifference_unrelated source destination a b longer shorter :
  getDomain source = Normal a →
  getDomain destination = Normal b →
  longer_shorter a b longer shorter →
  shorter = [] ∨ ¬ (∃ pre post, longer = pre ++ shorter ++ post) →
  getSubdomainDifference source destination = Normal 0.
Proof.
  intros Ha Hb Hls Hcase.
  rewrite (getSubdomainDifference_longer_shorter _ _ _ _ _ _ Ha Hb Hls).
  f_equal. unfold residualDelta.
  rewrite bool_decide_eq_true_2; [done|].
  destruct Hcase as [->|Hno]; [|by rewrite removeFirst_absent].
  by destruct longer.
Qed.

Lemma getSubdomainDifference_unrelated_witness :
  getSubdomainDifference (lit "one.nickschorr.com") (lit "http://amazon.com/")
  = Normal 0.
Proof.
  apply (getSubdomainDifference_unrelated _ _
           (lit "one.nickschorr.com") (lit "amazon.com")
           (lit "one.nickschorr.com") (lit "amazon.com")).
  - by vm_compute.
  - by vm_compute.
  - split; [by left|evaluated].
  - right. intros (pre & post & Heq).
    assert (Hin : chr "z" ∈ lit "one.nickschorr.com").
    { rewrite Heq. rewrite !elem_of_app. right. left. evaluated. }
    revert Hin. apply (bool_decide_eq_false_1 _). by vm_compute.
Defined.

(** X9: the difference is never negative and never exceeds the number of
    periods of the argument that has more of them. *)
Theorem getSubdomainDifference_bounds source destination :
  ∃ delta,
    getSubdomainDifference source destination = Normal delta
    ∧ 0 ≤ delta ≤ Z.max (countPeriods source) (countPeriods destination).
Proof.
  assert (Hpiece : ∀ url domain : jsstring,
            getDomain url = Normal domain →
            countPeriods domain ≤ countPeriods url).
  { intros url domain Hd.
    destruct (getDomain_piece url) as (d & pre & post & Hd' & -> & _).
    rewrite Hd in Hd'. injection Hd' as <-.
    rewrite !countPeriods_app.
    pose proof (countPeriods_nonneg pre). pose proof (countPeriods_nonneg post).
    lia. }
  destruct (getDomain_total source) as [a Ha].
  destruct (getDomain_total destination) as [b Hb].
  rewrite (getSubdomainDifference_residual _ _ _ _ Ha Hb).
  eexists. split; [done|].
  apply Hpiece in Ha, Hb.
  case_bool_decide.
  - pose proof (residualDelta_bounds b a). lia.
  - pose proof (residualDelta_bounds a b). lia.
Qed.

End SubdomainDifferenceMore.

(** ** isValidInput and storeRule *)

Section ValidationMore.
Import Js Options Spec Rules.
Implicit Types (source destination s : jsstring) (rules : list Rule).

(** The candidate passes the three rejecting checks. *)
Let admissible source destination rules : Prop :=
  ¬ blank source ∧ ¬ blank destination
  ∧ ¬ has_field "src" source rules ∧ ¬ has_field "dest" source rules.

Lemma isValidInput_cases source destination rules :
  ∃ delta,
    getSubdomainDifference source destination = Normal delta
    ∧ isValidInput source destination rules =
        if decide (blank source ∨ blank destination) then
          (Normal false, [showNotificationPopup WARNING_SYMBOL NO_EMPTY_TEXT red])
        else if decide (has_field "src" source rules) then
          (Normal false, [showNotificationPopup WARNING_SYMBOL NO_DUPS_TEXT red])
        else if decide (has_field "dest" source rules) then
          (Normal false, [showNotificationPopup WARNING_SYMBOL NO_CYCLES_TEXT red])
        else
          (Normal true,
           if decide (0 < delta)
           then [showNotificationPopup SUCCESS_SYMBOL MISMATCHED_SUBDOMAINS_TEXT
                                       green]
           else []).
Proof.
  destruct (getSubdomainDifference_total source destination) as [delta Hdelta].
  exists delta. split; [done|]. unfold isValidInput.
  destruct (hasChars source) eqn:Hs; cbn [negb orb].
  2:{ apply hasChars_blank in Hs. by rewrite decide_True by auto. }
  destruct (hasChars destination) eqn:Hd; cbn [negb].
  2:{ apply hasChars_blank in Hd. by rewrite decide_True by auto. }
  rewrite decide_False.
  2:{ intros [H|H]; apply hasChars_blank in H; congruence. }
  destruct (some (λ obj, hasValue obj "src" (VStr source)) rules) eqn:Hsrc.
  { apply some_has_field in Hsrc. by rewrite decide_True. }
  rewrite decide_False.
  2:{ intros H%some_has_field. congruence. }
  destruct (some (λ obj, hasValue obj "dest" (VStr source)) rules) eqn:Hdest.
  { apply some_has_field in Hdest. by rewrite decide_True. }
  rewrite decide_False.
  2:{ intros H%some_has_field. congruence. }
  rewrite Hdelta. by case_bool_decide; case_decide.
Qed.

Lemma isValidInput_true source destination rules :
  (isValidInput source destination rules).1 = Normal true
  ↔ admissible source destination rules.
Proof.
  destruct (isValidInput_cases source destination rules) as (delta & _ & ->).
  unfold admissible. repeat case_decide; cbn; split; try done; try tauto.
  all: intros (? & ? & ? & ?); tauto.
Qed.

Lemma storeRule_decide source destination isRegex redirectionRules :
  storeRule source destination isRegex redirectionRules =
    let rules := default [] redirectionRules in
    if decide (admissible source destination rules) then
      rules ++ [ {[ "src" := VStr (trim source);
                    "dest" := VStr (trim destination);
                    "regex" := VBool isRegex ]} ]
    else rules.
Proof.
  unfold storeRule. cbn zeta.
  set (rules := default [] redirectionRules).
  destruct (isValidInput_cases source destination rules) as (delta & _ & ->).
  unfold admissible. repeat case_decide; try done; tauto.
Qed.

(** X10: among destinations that are not blank, the destination has no
    influence on whether a rule is accepted: it is never compared with the
    existing rules. *)
Theorem isValidInput_destination source destination1 destination2 rules :
  ¬ blank destination1 →
  ¬ blank destination2 →
  (isValidInput source destination1 rules).1 =
  (isValidInput source destination2 rules).1.
Proof.
  intros H1 H2.
  destruct (isValidInput_cases source destination1 rules) as (d1 & _ & ->).
  destruct (isValidInput_cases source destination2 rules) as (d2 & _ & ->).
  repeat case_decide; try done; tauto.
Qed.

Lemma isValidInput_destination_witness :
  (isValidInput (lit "a.com") (lit "nickschorr.com/path/") Fixtures.rules_valid).1
  = (isValidInput (lit "a.com") (lit "b.com") Fixtures.rules_valid).1.
Proof. apply isValidInput_destination; evaluated. Defined.

(** X11: a rule that redirects a source to itself is accepted, with no
    advisory, and stored. *)
Theorem self_redirect_accepted s isRegex rules :
  ¬ blank s →
  ¬ has_field "src" s rules →
  ¬ has_field "dest" s rules →
  validate s s rules = Normal Accepted
  ∧ storeRule s s isRegex (Some rules) =
      rules ++ [ {[ "src" := VStr (trim s); "dest" := VStr (trim s);
                    "regex" := VBool isRegex ]} ].
Proof.
  intros Hs Hsrc Hdest. split.
  - destruct (getDomain_total s) as [d Hd].
    assert (Hdelta : getSubdomainDifference s s = Normal 0).
    { rewrite (getSubdomainDifference_residual _ _ _ _ Hd Hd).
      by rewrite bool_decide_eq_true_2, residualDelta_same_length. }
    rewrite (validate_checks _ _ _ _ Hdelta). unfold checks.
    rewrite decide_False by tauto. by rewrite !decide_False.
  - rewrite storeRule_decide. cbn zeta. by rewrite decide_True.
Qed.

Lemma self_redirect_accepted_witness :
  validate (lit "a.com") (lit "a.com") Fixtures.rules_valid = Normal Accepted
  ∧ storeRule (lit "a.com") (lit "a.com") false (Some Fixtures.rules_valid) =
      Fixtures.rules_valid
      ++ [ {[ "src" := VStr (trim (lit "a.com"));
              "dest" := VStr (trim (lit "a.com"));
              "regex" := VBool false ]} ].
Proof. apply self_redirect_accepted; evaluated. Defined.

(** X12: [isValidInput] raises at most one notification: a red warning
    with one of the three rejection texts exactly when it returns [false],
    and nothing or the green subdomain notification when it returns
    [true]. *)
Theorem isValidInput_notifications source destination rules :
  (∃ t, isValidInput source destination rules =
          (Normal false, [showNotificationPopup WARNING_SYMBOL t red])
        ∧ t ∈ [NO_EMPTY_TEXT; NO_DUPS_TEXT; NO_CYCLES_TEXT])
  ∨ isValidInput source destination rules = (Normal true, [])
  ∨ isValidInput source destination rules =
      (Normal true,
       [showNotificationPopup SUCCESS_SYMBOL MISMATCHED_SUBDOMAINS_TEXT green]).
Proof.
  destruct (isValidInput_cases source destination rules) as (delta & _ & ->).
  repeat case_decide; eauto; left; eexists; (split; [done|evaluated]).
Qed.

(** X13: [storeRule] appends the trimmed rule at the end of the stored
    list when source and destination are not blank and the source is
    neither source nor destination of a stored rule, and leaves the list
    as it is otherwise; stored rules are never changed, removed or
    reordered. *)
Theorem storeRule_appends source destination isRegex redirectionRules :
  storeRule source destination isRegex redirectionRules =
    let rules := default [] redirectionRules in
    if decide (¬ blank source ∧ ¬ blank destination
               ∧ ¬ has_field "src" source rules
               ∧ ¬ has_field "dest" source rules)
    then rules ++ [ {[ "src" := VStr (trim source);
                       "dest" := VStr (trim destination);
                       "regex" := VBool isRegex ]} ]
    else rules.
Proof. apply storeRule_decide. Qed.

End ValidationMore.

(** ** The rule lists storeRule and deleteRule build *)

Section RuleLists.
Import Js Options Spec Rules.
Implicit Types (source destination s : jsstring) (rules : list Rule).

Lemma dropWhile_head p (s : jsstring) c rest :
  dropWhile p s = c :: rest → p c = false.
Proof.
  induction s as [|x s IH]; [done|]. cbn [dropWhile].
  destruct (p x) eqn:Hx; [done|]. by intros [= <- _].
Qed.

Lemma dropWhile_idemp p (s : jsstring) :
  dropWhile p (dropWhile p s) = dropWhile p s.
Proof.
  destruct (dropWhile p s) as [|c rest] eqn:Hs; [done|].
  apply dropWhile_head in Hs. cbn. by rewrite Hs.
Qed.

(** [trim] removes a blank prefix and a blank suffix. *)
Lemma trim_split s :
  ∃ pre post, s = pre ++ trim s ++ post ∧ blank pre ∧ blank post.
Proof.
  exists (takeWhile isWhiteSpace s),
         (reverse (takeWhile isWhiteSpace (reverse (dropWhile isWhiteSpace s)))).
  split; [|split].
  - unfold trim. rewrite <-reverse_app, takeWhile_dropWhile, reverse_involutive.
    by rewrite takeWhile_dropWhile.
  - apply takeWhile_Forall.
  - apply Forall_reverse, takeWhile_Forall.
Qed.

Lemma trim_nonblank s : ¬ blank s → ¬ blank (trim s).
Proof.
  intros Hs Hblank. apply Hs.
  destruct (trim_split s) as (pre & post & Heq & Hpre & Hpost).
  rewrite Heq. unfold blank in *. by rewrite !Forall_app.
Qed.

Lemma trim_idemp s : trim (trim s) = trim s.
Proof.
  assert (Hend : dropWhile isWhiteSpace (reverse (trim s)) = reverse (trim s)).
  { unfold trim. by rewrite reverse_involutive, dropWhile_idemp. }
  assert (Hstart : dropWhile isWhiteSpace (trim s) = trim s).
  { destruct (trim s) as [|c rest] eqn:Htrim; [done|].
    assert (Hc : isWhiteSpace c = false); [|by cbn; rewrite Hc].
    destruct (trim_split s) as (pre & post & Heq & Hpre & _).
    rewrite Htrim in Heq.
    assert (Hdrop : dropWhile isWhiteSpace s
                    = reverse (reverse (dropWhile isWhiteSpace s)))
      by by rewrite reverse_involutive.
    rewrite <-(takeWhile_dropWhile isWhiteSpace
                 (reverse (dropWhile isWhiteSpace s))) in Hdrop.
    rewrite reverse_app in Hdrop. fold (trim s) in Hdrop.
    rewrite Htrim in Hdrop. by apply dropWhile_head in Hdrop. }
  unfold trim at 1. by rewrite Hstart, Hend, reverse_involutive.
Qed.

Lemma storeRule_cases source destination isRegex rules :
  (storeRule source destination isRegex (Some rules) = rules)
  ∨ (storeRule source destination isRegex (Some rules) =
       rules ++ [ {[ "src" := VStr (trim source);
                     "dest" := VStr (trim destination);
                     "regex" := VBool isRegex ]} ]
     ∧ ¬ blank source ∧ ¬ blank destination
     ∧ ¬ has_field "src" source rules ∧ ¬ has_field "dest" source rules).
Proof.
  rewrite storeRule_decide. cbn zeta. case_decide; [right|left]; tauto.
Qed.

(** X14: [storeRule] keeps the stored list well formed: if every rule has
    the three fields, with trimmed source and destination that are not
    blank, the same holds after the call, whatever the arguments. *)
Theorem storeRule_stored source destination isRegex rules :
  Forall stored rules →
  Forall stored (storeRule source destination isRegex (Some rules)).
Proof.
  intros Hrules.
  destruct (storeRule_cases source destination isRegex rules)
    as [->|(-> & Hs & Hd & _)]; [done|].
  apply Forall_app. split; [done|]. constructor; [|done].
  exists (trim source), (trim destination), isRegex.
  split; [done|]. by rewrite !trim_idemp; auto using trim_nonblank.
Qed.

Lemma storeRule_stored_witness :
  Forall stored (storeRule (lit "  a.com ") (lit " b.com/x ") true
                           (Some [ {[ "src" := VStr (lit "c.com");
                                      "dest" := VStr (lit "d.com");
                                      "regex" := VBool false ]} ])).
Proof.
  apply storeRule_stored. constructor; [|done].
  exists (lit "c.com"), (lit "d.com"), false.
  split; [done|]. repeat split; first [evaluated|by vm_compute].
Defined.

Lemma has_field_sources s rules :
  VStr s ∈ sources rules ↔ has_field "src" s rules.
Proof.
  unfold sources, has_field. rewrite list_elem_of_omap, Exists_exists. done.
Qed.

Lemma leads_to_snoc rules rule i j :
  leads_to (rules ++ [rule]) i j →
  (i < length rules ∧ j < length rules ∧ leads_to rules i j)%nat
  ∨ (j = length rules
     ∧ (i = length rules
        ∨ ∃ rule_i v, rules !! i = Some rule_i
                      ∧ rule_i !! "dest" = Some v ∧ rule !! "src" = Some v))
  ∨ (i = length rules ∧ j < length rules)%nat.
Proof.
  intros (ri & rj & v & Hi & Hj & Hdest & Hsrc).
  apply lookup_snoc_Some in Hi, Hj.
  destruct Hi as [[Hi Hri]|[-> ->]], Hj as [[Hj Hrj]|[-> ->]].
  - left. split; [done|]. split; [done|]. by exists ri, rj, v.
  - right. left. split; [done|]. right. by exists ri, v.
  - right. right. done.
  - right. left. split; [done|]. by left.
Qed.

Lemma leads_to_delete rules k i j :
  leads_to (delete k rules) i j →
  leads_to rules (if decide (i < k)%nat then i else S i)
                 (if decide (j < k)%nat then j else S j).
Proof.
  intros (ri & rj & v & Hi & Hj & Hdest & Hsrc).
  exists ri, rj, v. repeat split; try done.
  - case_decide; [by rewrite <-(list_lookup_delete_lt rules k)|].
    by rewrite <-(list_lookup_delete_ge rules k) by lia.
  - case_decide; [by rewrite <-(list_lookup_delete_lt rules k)|].
    by rewrite <-(list_lookup_delete_ge rules k) by lia.
Qed.

Lemma sources_delete rules k :
  sources (delete k rules) `sublist_of` sources rules.
Proof.
  unfold sources. revert k.
  induction rules as [|r rules IH]; intros [|k]; cbn; try done.
  - destruct (r !! "src"); [by apply sublist_cons|done].
  - destruct (r !! "src"); [by apply sublist_skip|done].
Qed.

Lemma reachable_invariants rules :
  reachable rules →
  Forall stored rules
  ∧ NoDup (sources rules)
  ∧ ∀ i j, leads_to rules i j → (j ≤ i)%nat.
Proof.
  induction 1 as [|rules source destination isRegex _ (Hst & Hnd & Hfw) Htrim
                  |rules k _ (Hst & Hnd & Hfw)].
  - split; [done|]. split; [constructor|].
    by intros i j (ri & _ & _ & Hi & _).
  - split; [by apply storeRule_stored|].
    destruct (storeRule_cases source destination isRegex rules)
      as [->|(-> & _ & _ & Hsrc & Hdest)]; [done|].
    rewrite Htrim. split.
    + unfold sources. rewrite omap_app. cbn.
      rewrite lookup_insert_eq. cbn.
      apply NoDup_app. split; [done|]. split; [|apply NoDup_singleton].
      intros x Hx ->%list_elem_of_singleton. by apply has_field_sources in Hx.
    + intros i j [(_ & _ & Hij)|[(-> & [->|Hback])|(-> & Hj)]]%leads_to_snoc.
      * by apply Hfw.
      * done.
      * destruct Hback as (ri & v & Hi & Hd & Hs).
        rewrite lookup_insert_eq in Hs. injection Hs as <-.
        destruct Hdest. apply Exists_exists. exists ri.
        split; [by eapply list_elem_of_lookup_2|done].
      * lia.
  - split; [by apply Forall_delete|]. split.
    + eapply sublist_NoDup; [exact Hnd|]. apply sources_delete.
    + intros i j Hij%leads_to_delete. apply Hfw in Hij.
      repeat case_decide; lia.
Qed.

(** X15: every list built from the empty one by [storeRule], called with
    trimmed sources, and by deletions keeps three invariants: its rules
    are well formed, no two of them have the same source, and the source
    of a rule is never the destination of a rule stored before it. *)
Theorem reachable_rules_invariants rules :
  reachable rules →
  Forall stored rules
  ∧ NoDup (sources rules)
  ∧ ∀ i j, (i < j)%nat → ¬ leads_to rules i j.
Proof.
  intros (Hst & Hnd & Hfw)%reachable_invariants.
  split; [done|]. split; [done|].
  intros i j Hlt Hij%Hfw. lia.
Qed.

Lemma built_rules :
  built =
    [ <["regex" := VBool false]> (Fixtures.rule "a.com" "b.com");
      <["regex" := VBool true]> (Fixtures.rule "e.com" "a.com");
      <["regex" := VBool false]> (Fixtures.rule "s.com" "s.com") ].
Proof. by vm_compute. Qed.

Lemma built_reachable : reachable built.
Proof.
  unfold built. cbn zeta.
  apply reachable_store; [|by vm_compute].
  apply reachable_delete.
  repeat (apply reachable_store; [|by vm_compute]).
  apply reachable_empty.
Qed.

Lemma reachable_rules_invariants_witness :
  Forall stored built
  ∧ NoDup (sources built)
  ∧ ∀ i j, (i < j)%nat → ¬ leads_to built i j.
Proof. apply reachable_rules_invariants. apply built_reachable. Defined.

Lemma tc_leads_to_down rules i j :
  reachable rules → tc (leads_to rules) i j → (j ≤ i)%nat.
Proof.
  intros (_ & _ & Hfw)%reachable_invariants.
  induction 1 as [a b Hab|a b c Hab _ IH]; [by apply Hfw|].
  apply Hfw in Hab. lia.
Qed.

(** X16: such a list has no redirect cycle through two or more rules: if
    a chain of redirects leads from rule [i] to rule [j] and a chain leads
    from [j] back to [i], then [i] and [j] are the same rule, and the
    destination of that rule is its own source. *)
Theorem reachable_rules_acyclic rules i j :
  reachable rules →
  tc (leads_to rules) i j →
  tc (leads_to rules) j i →
  i = j
  ∧ ∃ rule v,
      rules !! i = Some rule
      ∧ rule !! "src" = Some v ∧ rule !! "dest" = Some v.
Proof.
  intros Hreach Hij Hji.
  pose proof (tc_leads_to_down _ _ _ Hreach Hij).
  pose proof (tc_leads_to_down _ _ _ Hreach Hji).
  assert (i = j) as <- by lia. split; [done|].
  assert (Hself : leads_to rules i i).
  { inversion Hij as [? ? Hii|? m ? Him Hmi]; subst; [done|].
    apply (tc_leads_to_down _ _ _ Hreach) in Hmi.
    pose proof (tc_leads_to_down _ _ _ Hreach (tc_once _ _ _ Him)).
    by replace m with i in Him by lia. }
  destruct Hself as (ri & rj & v & Hi & Hj & Hdest & Hsrc).
  rewrite Hi in Hj. injection Hj as <-. by exists ri, v.
Qed.

Lemma reachable_rules_acyclic_witness :
  2%nat = 2%nat
  ∧ ∃ rule v,
      built !! 2%nat = Some rule
      ∧ rule !! "src" = Some v ∧ rule !! "dest" = Some v.
Proof.
  assert (tc (leads_to built) 2%nat 2%nat) as Hcycle.
  { apply tc_once.
    exists (<["regex" := VBool false]> (Fixtures.rule "s.com" "s.com")),
           (<["regex" := VBool false]> (Fixtures.rule "s.com" "s.com")),
           (VStr (lit "s.com")).
    repeat split; by vm_compute. }
  exact (reachable_rules_acyclic built 2%nat 2%nat built_reachable
           Hcycle Hcycle).
Defined.

End RuleLists.

(** ** Button ids and getButtonIndex *)

Section ButtonIds.
Import Js Options Spec Page.

Lemma mathInt_app (a b : jsstring) :
  mathInt (a ++ b) = mathInt a * 10 ^ Z.of_nat (length b) + mathInt b.
Proof.
  unfold mathInt. rewrite foldl_app.
  generalize (foldl (λ acc d, 10 * acc + (Z.of_N d - 48)) 0 a) as x.
  induction b as [|d b IH] using rev_ind; intros x.
  - cbn. lia.
  - rewrite !foldl_app, length_app. cbn [foldl length].
    rewrite IH, Nat2Z.inj_add, Z.pow_add_r by lia.
    change (Z.of_nat 1) with 1. rewrite Z.pow_1_r. lia.
Qed.

Lemma digitsOf_acc fuel n acc :
  digitsOf fuel n acc = digitsOf fuel n [] ++ acc.
Proof.
  revert n acc. induction fuel as [|fuel IH]; intros n acc; cbn [digitsOf].
  - done.
  - destruct (n <? 10)%N; [done|].
    rewrite (IH _ (_ :: acc)), (IH _ [_]). by rewrite <-app_assoc.
Qed.

Lemma digitsOf_digits fuel n :
  (n < 2 ^ N.of_nat (S fuel))%N →
  mathInt (digitsOf fuel n []) = Z.of_N n
  ∧ Forall (λ c, isDigit c = true) (digitsOf fuel n [])
  ∧ digitsOf fuel n [] ≠ [].
Proof.
  assert (Hone : ∀ n, (n < 10)%N →
            mathInt [(48 + n mod 10)%N] = Z.of_N n
            ∧ Forall (λ c, isDigit c = true) [(48 + n mod 10)%N]
            ∧ [(48 + n mod 10)%N] ≠ []).
  { intros k Hk. rewrite N.mod_small by done. split; [|split; [|done]].
    - unfold mathInt. cbn [foldl]. lia.
    - constructor; [|done]. unfold isDigit.
      apply andb_true_iff. rewrite !N.leb_le. lia. }
  revert n. induction fuel as [|fuel IH]; intros n Hn.
  - apply Hone. cbn in Hn. lia.
  - cbn [digitsOf]. destruct (N.ltb_spec n 10) as [Hlt|Hge]; [by apply Hone|].
    rewrite digitsOf_acc.
    assert (Hdigit : (n mod 10 < 10)%N) by (apply N.mod_lt; lia).
    destruct (IH (n / 10)%N) as (Hval & Hall & Hne).
    { rewrite Nat2N.inj_succ, N.pow_succ_r' in Hn.
      apply N.Div0.div_lt_upper_bound. lia. }
    split; [|split].
    + rewrite mathInt_app, Hval. unfold mathInt. cbn [foldl length].
      change (Z.of_nat 1) with 1. rewrite Z.pow_1_r.
      pose proof (N.div_mod n 10 ltac:(lia)). lia.
    + apply Forall_app. split; [done|].
      constructor; [|done]. unfold isDigit.
      apply andb_true_iff. rewrite !N.leb_le.
      revert Hdigit. generalize (n mod 10)%N. intros d Hd. lia.
    + by destruct (digitsOf fuel (n / 10) []).
Qed.

Lemma toDecimal_digits n :
  mathInt (toDecimal n) = Z.of_N n
  ∧ Forall (λ c, isDigit c = true) (toDecimal n)
  ∧ toDecimal n ≠ [].
Proof.
  apply digitsOf_digits.
  rewrite Nat2N.inj_succ, N2Nat.id.
  destruct n as [|p]; [done|]. apply N.log2_spec. lia.
Qed.

Lemma firstDigits_deleteRuleButton row :
  firstDigits (deleteRuleButton row) = toDecimal (N.of_nat row).
Proof.
  destruct (toDecimal_digits (N.of_nat row)) as (_ & Hall & Hne).
  unfold firstDigits, deleteRuleButton.
  rewrite dropWhile_app_all by evaluated.
  destruct (toDecimal (N.of_nat row)) as [|c rest] eqn:Hdec; [done|].
  pose proof Hall as Hall'. apply Forall_cons in Hall' as [Hc _].
  cbn [dropWhile]. rewrite Hc. cbn [negb].
  by apply takeWhile_all.
Qed.

Lemma getButtonIndex_row row :
  Z.of_nat row < 2 ^ 53 →
  getButtonIndex (deleteRuleButton row) = Normal (Some (Int (Z.of_nat row))).
Proof.
  intros Hrow.
  rewrite getButtonIndex_firstDigits, firstDigits_deleteRuleButton.
  destruct (toDecimal_digits (N.of_nat row)) as (Hval & _ & Hne).
  destruct (toDecimal (N.of_nat row)) as [|c rest]; [done|].
  rewrite Hval, nat_N_Z. by rewrite toNumber_exact by lia.
Qed.

(** X17: the id that [buildRulesTable] gives to the delete button of a
    row is read back by [getButtonIndex] as the number of that row, for
    every row below 2^53, where Numbers are exact (a row is an array
    index, below 2^32). *)
Theorem getButtonIndex_deleteRuleButton row :
  Z.of_nat row < 2 ^ 53 →
  getButtonIndex (deleteRuleButton row) = Normal (Some (Int (Z.of_nat row))).
Proof. apply getButtonIndex_row. Qed.

Lemma getButtonIndex_deleteRuleButton_witness :
  getButtonIndex (deleteRuleButton 999) = Normal (Some (Int (Z.of_nat 999))).
Proof. apply getButtonIndex_deleteRuleButton. by vm_compute. Defined.

End ButtonIds.

(** ** The rules table, storeRule and deleteRule on the page *)

Section PageMore.
Import Js Options Spec Page.
Implicit Types (st : State) (rules : list Rule) (id : jsstring).

Lemma deleteRuleButton_inj row1 row2 :
  deleteRuleButton row1 = deleteRuleButton row2 → row1 = row2.
Proof.
  intros Heq%(f_equal firstDigits).
  rewrite !firstDigits_deleteRuleButton in Heq.
  apply (f_equal mathInt) in Heq.
  destruct (toDecimal_digits (N.of_nat row1)) as (H1 & _).
  destruct (toDecimal_digits (N.of_nat row2)) as (H2 & _).
  lia.
Qed.

(** *** What the functions leave untouched *)

(** Two states that differ in the tables and the status line only. *)
Let same_data st st' : Prop :=
  redirectionRules st' = redirectionRules st
  ∧ sent st' = sent st ∧ raised st' = raised st
  ∧ addRuleMobile st' = addRuleMobile st
  ∧ addRuleDesktop st' = addRuleDesktop st.

Lemma for_each_addBtnListener_data rows st :
  same_data st (for_each (λ btn, addBtnListener (deleteRuleButton btn)) rows st).2.
Proof.
  revert st. induction rows as [|row rows IH]; intros st; [done|].
  cbn [for_each]. unfold mbind, action_bind, addBtnListener at 1.
  destruct (addListenerTables _ _) as [ts|]; [|done].
  destruct (IH (set_tables ts st)) as (? & ? & ? & ? & ?). done.
Qed.

Lemma buildRulesTable_data st : same_data st (buildRulesTable st).2.
Proof.
  unfold buildRulesTable. case_bool_decide; [|done].
  destruct (mapM _ _) as [table| |]; [|done..].
  apply (for_each_addBtnListener_data _
           (set_tables _ (set_currentRulesStatus CURRENT_RULES_TEXT st))).
Qed.

Lemma updateRulesTable_data st : same_data st (updateRulesTable st).2.
Proof.
  unfold updateRulesTable, mbind, action_bind, deleteRulesTable.
  destruct (tables st) as [|t ts] eqn:Hts.
  - apply buildRulesTable_data.
  - apply (buildRulesTable_data (set_tables ts st)).
Qed.

(** *** Building the table *)

Lemma mapM_tableRow (pre rules : list Rule) :
  mapM (tableRow (pre ++ rules)) (seq (length pre) (length rules))
  = Normal (rowsFrom (length pre) (λ _, []) rules).
Proof.
  revert pre. induction rules as [|rule rules IH]; intros pre; [done|].
  cbn [length seq mapM rowsFrom].
  assert (tableRow (pre ++ rule :: rules) (length pre)
          = Normal {| sourceCell := default VUndefined (rule !! "src");
                      destinationCell := default VUndefined (rule !! "dest");
                      buttonId := deleteRuleButton (length pre);
                      clickListeners := [] |}) as ->.
  { unfold tableRow. by rewrite list_lookup_middle. }
  specialize (IH (pre ++ [rule])).
  rewrite <-app_assoc, length_app, Nat.add_1_r in IH. cbn [app] in IH.
  cbn [mbind completion_bind]. by rewrite IH.
Qed.

(** The rows whose buttons below [k] have their listener. *)
Let upTo (k : nat) (row : nat) : list jsstring :=
  if bool_decide (row < k)%nat then [deleteRuleButton row] else [].

Lemma rowsFrom_ext from f g rules :
  (∀ row, (from ≤ row < from + length rules)%nat → f row = g row) →
  rowsFrom from f rules = rowsFrom from g rules.
Proof.
  revert from. induction rules as [|rule rules IH]; intros from Hfg; [done|].
  cbn [rowsFrom]. rewrite Hfg by (cbn; lia). f_equal.
  apply IH. intros row Hrow. apply Hfg. cbn. lia.
Qed.

Lemma addListenerRows_upTo from k rules :
  (from ≤ k < from + length rules)%nat →
  addListenerRows (deleteRuleButton k) (rowsFrom from (upTo k) rules)
  = Some (rowsFrom from (upTo (S k)) rules).
Proof.
  revert from. induction rules as [|rule rules IH]; intros from Hk.
  { cbn in Hk. lia. }
  cbn [rowsFrom addListenerRows buttonId].
  destruct (decide (from = k)) as [->|Hne].
  - rewrite bool_decide_eq_true_2 by done.
    cbn [sourceCell destinationCell buttonId clickListeners].
    assert (upTo k k = []) as ->
      by (unfold upTo; by rewrite bool_decide_eq_false_2 by lia).
    assert (upTo (S k) k = [deleteRuleButton k]) as ->
      by (unfold upTo; by rewrite bool_decide_eq_true_2 by lia).
    cbn [app]. f_equal. f_equal.
    apply rowsFrom_ext. intros row Hrow. unfold upTo.
    by rewrite !bool_decide_eq_false_2 by lia.
  - rewrite bool_decide_eq_false_2 by (by intros ?%deleteRuleButton_inj).
    rewrite IH by (cbn in Hk; lia). cbn [fmap option_fmap option_map].
    assert (upTo k from = upTo (S k) from) as ->; [|done].
    unfold upTo. by rewrite !bool_decide_eq_true_2 by lia.
Qed.

Lemma for_each_addBtnListener rules st k n :
  tables st = [rowsFrom 0 (upTo k) rules] →
  (k + n = length rules)%nat →
  for_each (λ btn, addBtnListener (deleteRuleButton btn)) (seq k n) st
  = (Normal (), set_tables [rowsFrom 0 (upTo (k + n)) rules] st).
Proof.
  revert st k. induction n as [|n IH]; intros st k Hts Hlen.
  - cbn. rewrite Nat.add_0_r, <-Hts. by destruct st.
  - cbn [seq for_each]. unfold mbind, action_bind, addBtnListener at 1.
    rewrite Hts. cbn [addListenerTables].
    rewrite addListenerRows_upTo by lia.
    rewrite IH; [|done|lia].
    by replace (S k + n)%nat with (k + S n)%nat by lia.
Qed.

Lemma buildRulesTable_shows st :
  tables st = [] →
  ∃ st',
    buildRulesTable st = (Normal (), st')
    ∧ shows (default [] (redirectionRules st)) st'.
Proof.
  intros Hts. unfold buildRulesTable.
  generalize (default [] (redirectionRules st)). intros rules.
  destruct (decide (rules = [])) as [->|Hne].
  { rewrite bool_decide_eq_false_2 by (cbn; lia). eexists. by split. }
  rewrite bool_decide_eq_true_2 by (destruct rules; cbn; [done|lia]).
  pose proof (mapM_tableRow [] rules) as Hrows.
  cbn [app length] in Hrows. rewrite Hrows.
  eexists.
  rewrite (for_each_addBtnListener rules _ 0 (length rules)); [| |done].
  2:{ cbn [tables set_tables set_currentRulesStatus]. by rewrite Hts. }
  split; [done|].
  assert (rowsFrom 0 (upTo (0 + length rules)) rules = shown rules) as ->.
  { apply rowsFrom_ext. intros row Hrow. unfold upTo.
    by rewrite bool_decide_eq_true_2 by lia. }
  by destruct rules.
Qed.

Lemma updateRulesTable_shows st :
  (length (tables st) ≤ 1)%nat →
  ∃ st',
    updateRulesTable st = (Normal (), st')
    ∧ shows (default [] (redirectionRules st)) st'
    ∧ same_data st st'.
Proof.
  intros Hlen.
  pose proof (updateRulesTable_data st) as Hdata.
  unfold updateRulesTable, mbind, action_bind, deleteRulesTable in *.
  destruct (tables st) as [|t [|t' ts]] eqn:Hts; [| |cbn in Hlen; lia].
  - destruct (buildRulesTable_shows st Hts) as (st' & Hbuild & Hshows).
    rewrite Hbuild in Hdata |- *. eauto.
  - destruct (buildRulesTable_shows (set_tables [] st) eq_refl)
      as (st' & Hbuild & Hshows).
    rewrite Hbuild in Hdata |- *. eauto.
Qed.

(** X18: when the page has at most one rules table, [updateRulesTable]
    ends normally and leaves the page showing exactly the stored rules: no
    table and the "no rules" text for an empty list, else one table with a
    row per rule, in order, each delete button with a single listener for
    its own id.  Storage, messages, notifications and input boxes are
    untouched. *)
Theorem updateRulesTable_displays st :
  (length (tables st) ≤ 1)%nat →
  ∃ st',
    updateRulesTable st = (Normal (), st')
    ∧ shows (default [] (redirectionRules st)) st'
    ∧ redirectionRules st' = redirectionRules st
    ∧ sent st' = sent st
    ∧ raised st' = raised st
    ∧ addRuleMobile st' = addRuleMobile st
    ∧ addRuleDesktop st' = addRuleDesktop st.
Proof. apply updateRulesTable_shows. Qed.

Lemma updateRulesTable_displays_witness :
  ∃ st',
    updateRulesTable (loaded Fixtures.rules_valid [] []) = (Normal (), st')
    ∧ shows (default [] (redirectionRules (loaded Fixtures.rules_valid [] []))) st'
    ∧ redirectionRules st' = redirectionRules (loaded Fixtures.rules_valid [] [])
    ∧ sent st' = sent (loaded Fixtures.rules_valid [] [])
    ∧ raised st' = raised (loaded Fixtures.rules_valid [] [])
    ∧ addRuleMobile st' = addRuleMobile (loaded Fixtures.rules_valid [] [])
    ∧ addRuleDesktop st' = addRuleDesktop (loaded Fixtures.rules_valid [] []).
Proof. apply updateRulesTable_displays. cbn. lia. Defined.

(** *** deleteRule *)

Lemma splice_one {A} (l : list A) (i : nat) x :
  l !! i = Some x →
  splice l (Int (Z.of_nat i)) 1 = ([x], delete i l).
Proof.
  intros Hi. pose proof (lookup_lt_Some _ _ _ Hi) as Hlt.
  unfold splice.
  rewrite (proj2 (Z.ltb_ge _ _)) by lia.
  rewrite Z.min_l, Z.max_l, Z.min_l, Nat2Z.id by lia.
  change (Z.to_nat 1) with 1%nat.
  rewrite delete_take_drop, Nat.add_1_r. f_equal.
  rewrite <-(take_drop_middle l i x Hi).
  rewrite drop_app_length'; [done|]. rewrite length_take. lia.
Qed.


Lemma deleteRule_index id st i rule :
  getButtonIndex id = Normal (Some (Int (Z.of_nat i))) →
  default [] (redirectionRules st) !! i = Some rule →
  (length (tables st) ≤ 1)%nat →
  ∃ st',
    deleteRule id st = (Normal (), st')
    ∧ redirectionRules st' = Some (delete i (default [] (redirectionRules st)))
    ∧ sent st' = sent st ++ [MsgDeleteRule (default VUndefined (rule !! "src"))]
    ∧ shows (delete i (default [] (redirectionRules st))) st'
    ∧ raised st' = raised st
    ∧ addRuleMobile st' = addRuleMobile st
    ∧ addRuleDesktop st' = addRuleDesktop st.
Proof.
  intros Hid Hrule Hts. unfold deleteRule. rewrite Hid.
  rewrite (splice_one _ _ _ Hrule). cbn [head member].
  unfold mbind at 1, action_bind at 1.
  unfold mbind at 1, action_bind at 1, sendMessage.
  set (st1 := set_sent _ _).
  destruct (updateRulesTable_shows st1 Hts)
    as (st' & -> & Hshows & Hr & Hs & Hp & Hm & Hd).
  exists st'. split; [done|]. by rewrite Hr, Hs, Hp, Hm, Hd.
Qed.

(** X19: with an id that contains no digit, [deleteRule] does nothing:
    storage, messages and the page are as before. *)
Theorem deleteRule_without_digit id st :
  Forall (λ c, isDigit c = false) id →
  deleteRule id st = (Normal (), st).
Proof.
  intros Hid. unfold deleteRule.
  rewrite getButtonIndex_firstDigits. unfold firstDigits.
  rewrite dropWhile_all; [done|].
  eapply Forall_impl; [exact Hid|]. by intros c ->.
Qed.

Lemma deleteRule_without_digit_witness :
  deleteRule (lit "deleteRuleButton-") (loaded Fixtures.rules_valid [] [])
  = (Normal (), loaded Fixtures.rules_valid [] []).
Proof. apply deleteRule_without_digit. evaluated. Defined.

(** X20: when the number in the id is the position of a stored rule (and
    the page has at most one rules table), [deleteRule] removes exactly
    that rule, keeping the others in order, announces its source in a
    [deleteRule] message, and leaves the page showing the remaining
    rules. *)
Theorem deleteRule_removes id st i rule :
  getButtonIndex id = Normal (Some (Int (Z.of_nat i))) →
  default [] (redirectionRules st) !! i = Some rule →
  (length (tables st) ≤ 1)%nat →
  ∃ st',
    deleteRule id st = (Normal (), st')
    ∧ redirectionRules st' = Some (delete i (default [] (redirectionRules st)))
    ∧ sent st' = sent st ++ [MsgDeleteRule (default VUndefined (rule !! "src"))]
    ∧ shows (delete i (default [] (redirectionRules st))) st'
    ∧ raised st' = raised st
    ∧ addRuleMobile st' = addRuleMobile st
    ∧ addRuleDesktop st' = addRuleDesktop st.
Proof. apply deleteRule_index. Qed.

Lemma deleteRule_removes_witness :
  ∃ st',
    deleteRule (lit "deleteRuleButton-1") (loaded Fixtures.rules_valid [] [])
    = (Normal (), st')
    ∧ redirectionRules st' =
        Some (delete 1%nat (default [] (redirectionRules
                                       (loaded Fixtures.rules_valid [] []))))
    ∧ sent st' =
        sent (loaded Fixtures.rules_valid [] [])
        ++ [MsgDeleteRule
              (default VUndefined
                 (Fixtures.rule "test.nickschorr.com/path/"
                                "test.nickschorr.com/path/test/" !! "src"))]
    ∧ shows (delete 1%nat (default [] (redirectionRules
                                      (loaded Fixtures.rules_valid [] [])))) st'
    ∧ raised st' = raised (loaded Fixtures.rules_valid [] [])
    ∧ addRuleMobile st' = addRuleMobile (loaded Fixtures.rules_valid [] [])
    ∧ addRuleDesktop st' = addRuleDesktop (loaded Fixtures.rules_valid [] []).
Proof.
  apply (deleteRule_removes _ _ 1%nat); [by vm_compute|by vm_compute|cbn; lia].
Defined.



Lemma shown_lookup rules i row :
  shown rules !! i = Some row →
  clickListeners row = [deleteRuleButton i]
  ∧ ∃ rule, rules !! i = Some rule
            ∧ sourceCell row = default VUndefined (rule !! "src")
            ∧ destinationCell row = default VUndefined (rule !! "dest").
Proof.
  unfold shown.
  assert (Hgen : ∀ from,
            rowsFrom from (λ row, [deleteRuleButton row]) rules !! i = Some row →
            clickListeners row = [deleteRuleButton (from + i)]
            ∧ ∃ rule, rules !! i = Some rule
                      ∧ sourceCell row = default VUndefined (rule !! "src")
                      ∧ destinationCell row = default VUndefined (rule !! "dest"));
    [|apply (Hgen 0%nat)].
  revert i. induction rules as [|rule rules IH]; intros i from; [done|].
  destruct i as [|i]; cbn [rowsFrom lookup list_lookup].
  - intros [= <-]. rewrite Nat.add_0_r. split; [done|]. by exists rule.
  - intros Hrow%IH. by rewrite Nat.add_succ_r.
Qed.

(** X22: on a page that shows the stored rules, a click on the delete
    button of the row at position [i] removes the rule at position [i]
    from storage, announces its source, and leaves the page showing the
    remaining rules, their buttons numbered anew.  (The position is below
    2^53, where Numbers are exact, as every array index is.) *)
Theorem clickDelete_removes_row st i row :
  shows (default [] (redirectionRules st)) st →
  shown (default [] (redirectionRules st)) !! i = Some row →
  Z.of_nat i < 2 ^ 53 →
  redirectionRules (clickDelete row st)
    = Some (delete i (default [] (redirectionRules st)))
  ∧ sent (clickDelete row st) = sent st ++ [MsgDeleteRule (sourceCell row)]
  ∧ shows (delete i (default [] (redirectionRules st))) (clickDelete row st).
Proof.
  intros Hshows Hrow Hexact.
  destruct (shown_lookup _ _ _ Hrow) as (Hlisteners & rule & Hrule & Hsrc & _).
  assert (Hts : (length (tables st) ≤ 1)%nat).
  { unfold shows in Hshows.
    destruct (default [] (redirectionRules st)); destruct Hshows as [-> _];
      cbn; lia. }
  unfold clickDelete. rewrite Hlisteners. cbn [foldl].
  destruct (deleteRule_index (deleteRuleButton i) st i rule)
    as (st' & -> & Hr & Hs & Hsh & _); [|done|done|].
  { by apply getButtonIndex_row. }
  cbn [snd]. by rewrite Hr, Hs, Hsrc.
Qed.

Lemma clickDelete_removes_row_witness :
  ∃ st row,
    updateRulesTable (loaded Fixtures.rules_valid [] []) = (Normal (), st)
    ∧ shown Fixtures.rules_valid !! 2%nat = Some row
    ∧ redirectionRules (clickDelete row st)
        = Some (delete 2%nat (default [] (redirectionRules st)))
    ∧ sent (clickDelete row st) = sent st ++ [MsgDeleteRule (sourceCell row)]
    ∧ shows (delete 2%nat (default [] (redirectionRules st)))
            (clickDelete row st).
Proof.
  eexists _, _. split; [by vm_compute|]. split; [by vm_compute|].
  apply clickDelete_removes_row; by vm_compute.
Defined.

(** *** storeRule and the two add buttons *)

Lemma storeRule_data source destination isRegex st :
  let st' := (Page.storeRule source destination isRegex st).2 in
  default [] (redirectionRules st')
    = Options.storeRule source destination isRegex (redirectionRules st)
  ∧ sent st' =
      sent st
      ++ match (isValidInput source destination
                  (default [] (redirectionRules st))).1 with
         | Normal true => [MsgAddRule (VStr (trim source))]
         | _ => []
         end
  ∧ raised st' =
      raised st
      ++ (isValidInput source destination (default [] (redirectionRules st))).2
  ∧ addRuleMobile st' = addRuleMobile st
  ∧ addRuleDesktop st' = addRuleDesktop st.
Proof.
  cbn zeta. unfold Page.storeRule, Options.storeRule.
  assert (Hcases :
    (∃ popups, isValidInput source destination
                 (default [] (redirectionRules st)) = (Normal false, popups))
    ∨ (∃ popups, isValidInput source destination
                   (default [] (redirectionRules st)) = (Normal true, popups))).
  { destruct (isValidInput_cases source destination
                (default [] (redirectionRules st))) as (delta & _ & ->).
    repeat case_decide; eauto. }
  destruct Hcases as [(popups & ->)|(popups & ->)]; cbn [fst snd].
  - by rewrite app_nil_r.
  - unfold mbind, action_bind, sendMessage.
    set (st1 := set_sent _ _).
    by destruct (updateRulesTable_data st1) as (-> & -> & -> & -> & ->).
Qed.

Lemma storeRule_page source destination isRegex st :
  (length (tables st) ≤ 1)%nat →
  ∃ st',
    Page.storeRule source destination isRegex st = (Normal (), st')
    ∧ default [] (redirectionRules st')
      = Options.storeRule source destination isRegex (redirectionRules st)
    ∧ raised st' =
        raised st
        ++ (isValidInput source destination
              (default [] (redirectionRules st))).2
    ∧ match (isValidInput source destination
               (default [] (redirectionRules st))).1 with
      | Normal true =>
          sent st' = sent st ++ [MsgAddRule (VStr (trim source))]
          ∧ shows (default [] (redirectionRules st')) st'
      | _ =>
          sent st' = sent st
          ∧ redirectionRules st' = redirectionRules st
          ∧ tables st' = tables st
          ∧ currentRulesStatus st' = currentRulesStatus st
      end.
Proof.
  intros Hts.
  pose proof (storeRule_data source destination isRegex st) as Hdata.
  cbn zeta in Hdata. destruct Hdata as (Hrules & Hsent & Hraised & _).
  revert Hrules Hsent Hraised. unfold Page.storeRule.
  assert (Hcases :
    (∃ popups, isValidInput source destination
                 (default [] (redirectionRules st)) = (Normal false, popups))
    ∨ (∃ popups, isValidInput source destination
                   (default [] (redirectionRules st)) = (Normal true, popups))).
  { destruct (isValidInput_cases source destination
                (default [] (redirectionRules st))) as (delta & _ & ->).
    repeat case_decide; eauto. }
  destruct Hcases as [(popups & ->)|(popups & ->)]; cbn [fst snd].
  - intros Hrules Hsent Hraised. eexists. split; [done|].
    rewrite app_nil_r in Hsent. by repeat split.
  - unfold mbind, action_bind, sendMessage.
    set (st1 := set_sent _ _).
    destruct (updateRulesTable_shows st1 Hts)
      as (st' & -> & Hshows & Hr & _).
    intros Hrules Hsent Hraised. exists st'. cbn [snd] in *.
    split; [done|]. split; [done|]. split; [done|]. split; [done|].
    by rewrite Hr.
Qed.

(** X23: on a page with at most one rules table, [storeRule] ends
    normally; it raises the notifications of [isValidInput]; when the rule
    is accepted the trimmed rule is appended to the stored list, its
    trimmed source is announced in an [addRule] message and the page shows
    the new list; when it is rejected, storage, messages and table are as
    before. *)
Theorem storeRule_on_page source destination isRegex st :
  (length (tables st) ≤ 1)%nat →
  ∃ st',
    Page.storeRule source destination isRegex st = (Normal (), st')
    ∧ default [] (redirectionRules st')
      = Options.storeRule source destination isRegex (redirectionRules st)
    ∧ raised st' =
        raised st
        ++ (isValidInput source destination
              (default [] (redirectionRules st))).2
    ∧ match (isValidInput source destination
               (default [] (redirectionRules st))).1 with
      | Normal true =>
          sent st' = sent st ++ [MsgAddRule (VStr (trim source))]
          ∧ shows (default [] (redirectionRules st')) st'
      | _ =>
          sent st' = sent st
          ∧ redirectionRules st' = redirectionRules st
          ∧ tables st' = tables st
          ∧ currentRulesStatus st' = currentRulesStatus st
      end.
Proof. apply storeRule_page. Qed.

Lemma storeRule_on_page_witness :
  ∃ st',
    Page.storeRule (lit " a.com") (lit "b.com ") true
      (loaded Fixtures.rules_valid [] []) = (Normal (), st')
    ∧ default [] (redirectionRules st')
      = Options.storeRule (lit " a.com") (lit "b.com ") true
          (redirectionRules (loaded Fixtures.rules_valid [] []))
    ∧ raised st' =
        raised (loaded Fixtures.rules_valid [] [])
        ++ (isValidInput (lit " a.com") (lit "b.com ")
              (default [] (redirectionRules
                             (loaded Fixtures.rules_valid [] [])))).2
    ∧ match (isValidInput (lit " a.com") (lit "b.com ")
               (default [] (redirectionRules
                              (loaded Fixtures.rules_valid [] [])))).1 with
      | Normal true =>
          sent st' = sent (loaded Fixtures.rules_valid [] [])
                     ++ [MsgAddRule (VStr (trim (lit " a.com")))]
          ∧ shows (default [] (redirectionRules st')) st'
      | _ =>
          sent st' = sent (loaded Fixtures.rules_valid [] [])
          ∧ redirectionRules st'
            = redirectionRules (loaded Fixtures.rules_valid [] [])
          ∧ tables st' = tables (loaded Fixtures.rules_valid [] [])
          ∧ currentRulesStatus st'
            = currentRulesStatus (loaded Fixtures.rules_valid [] [])
      end.
Proof. apply storeRule_on_page. cbn. lia. Defined.

(** X24: a click on one of the two add buttons always empties both input
    boxes, whether the rule is accepted or not, and stores what
    [storeRule] stores for the values the boxes had, with the regex flag
    of the button. *)
Theorem clickAdd_clears isRegex st :
  addRuleMobile (clickAdd isRegex st).2 = []
  ∧ addRuleDesktop (clickAdd isRegex st).2 = []
  ∧ default [] (redirectionRules (clickAdd isRegex st).2)
    = Options.storeRule (addRuleMobile st) (addRuleDesktop st) isRegex
        (redirectionRules st).
Proof.
  unfold clickAdd.
  pose proof (storeRule_data (addRuleMobile st) (addRuleDesktop st) isRegex
                (set_inputs [] [] st)) as Hdata.
  cbn zeta in Hdata. by destruct Hdata as (-> & _ & _ & -> & ->).
Qed.

(** X28: a click on one of the two add buttons keeps the page showing the
    stored rules, whether the rule is accepted or not. *)
Theorem clickAdd_keeps_display isRegex st :
  shows (default [] (redirectionRules st)) st →
  shows (default [] (redirectionRules (clickAdd isRegex st).2))
        (clickAdd isRegex st).2.
Proof.
  intros Hshows. unfold clickAdd.
  set (st0 := set_inputs [] [] st).
  assert (Hshows0 : shows (default [] (redirectionRules st0)) st0).
  { revert Hshows. unfold shows. cbn.
    by destruct (default [] (redirectionRules st)). }
  assert (Hts : (length (tables st0) ≤ 1)%nat).
  { unfold shows in Hshows0.
    destruct (default [] (redirectionRules st0)); destruct Hshows0 as [-> _];
      cbn; lia. }
  destruct (storeRule_page (addRuleMobile st) (addRuleDesktop st) isRegex
              st0 Hts) as (st' & -> & _ & _ & Hcase).
  cbn [snd].
  destruct (isValidInput _ _ _).1 as [[]| |];
    try (by destruct Hcase as [_ Hcase]).
  all: destruct Hcase as (_ & Hrules & Htables & Hstatus);
    revert Hshows0; unfold shows; by rewrite Hrules, Htables, Hstatus.
Qed.

Lemma clickAdd_keeps_display_witness :
  ∃ st,
    updateRulesTable
      (loaded Fixtures.rules_valid (lit "a.com") (lit "b.com"))
    = (Normal (), st)
    ∧ shows (default [] (redirectionRules (clickAdd false st).2))
            (clickAdd false st).2.
Proof.
  eexists. split; [by vm_compute|].
  apply clickAdd_keeps_display; by vm_compute.
Defined.

End PageMore.

(** ** The notification popup *)

Section NotificationMore.
Import Js Options Notification.

Lemma classList_add_token token classes :
  token ∈ classList_add token classes.
Proof.
  unfold classList_add. case_bool_decide; [done|].
  apply elem_of_app. right. by apply list_elem_of_singleton.
Qed.

Lemma classList_add_keeps token token' classes :
  token' ∈ classes → token' ∈ classList_add token classes.
Proof.
  intros Hin. unfold classList_add. case_bool_decide; [done|].
  apply elem_of_app. by left.
Qed.

Lemma notify_message getMessage p dom c message :
  getMessage (text p) = c :: message →
  notify getMessage p dom =
    {| classList :=
         classList_add (lit "visible")
           (classList_add (colorClass (color p)) (classList dom));
       notificationPopupStatus := c :: message;
       notificationPopupStatusIcon := symbolText (symbol p);
       timers :=
         timers dom
         ++ [(500 + 75 * Z.of_nat (length (c :: message)),
              hideNotificationPopup)] |}.
Proof.
  intros Hmessage. unfold notify, show. rewrite Hmessage.
  cbn [calcTimeToReadString]. case_bool_decide as Hdelay.
  - injection Hdelay as Hdelay. cbn [length] in Hdelay. lia.
  - cbn [classList notificationPopupStatus notificationPopupStatusIcon
         timers]. by destruct (symbol p).
Qed.

Lemma fire_last ts d cb classes status icon :
  fire (length ts)
    {| classList := classes; notificationPopupStatus := status;
       notificationPopupStatusIcon := icon; timers := ts ++ [(d, cb)] |}
  = run cb {| classList := classes; notificationPopupStatus := status;
              notificationPopupStatusIcon := icon; timers := ts |}.
Proof.
  unfold fire. cbn [timers classList notificationPopupStatus
                    notificationPopupStatusIcon].
  assert (delete (length ts) (ts ++ [(d, cb)]) = ts) as Hdelete.
  { induction ts as [|t ts IH]; [done|]. exact (f_equal (cons t) IH). }
  rewrite list_lookup_middle by done. by rewrite Hdelete.
Qed.

(** X25: a notification of [isValidInput] whose localized text is not
    empty makes the popup visible in the notification's colour, with the
    text and the symbol, and sets one timer of 500 ms plus 75 ms for each
    code unit of the text; when that timer fires, the popup is as
    [hideNotificationPopup] leaves it. *)
Theorem notify_shows_until_timer getMessage p dom :
  getMessage (text p) ≠ [] →
  lit "visible" ∈ classList (notify getMessage p dom)
  ∧ colorClass (color p) ∈ classList (notify getMessage p dom)
  ∧ notificationPopupStatus (notify getMessage p dom) = getMessage (text p)
  ∧ notificationPopupStatusIcon (notify getMessage p dom)
    = symbolText (symbol p)
  ∧ timers (notify getMessage p dom) =
      timers dom
      ++ [(500 + 75 * Z.of_nat (length (getMessage (text p))),
           hideNotificationPopup)]
  ∧ fire (length (timers dom)) (notify getMessage p dom) = hide dom.
Proof.
  intros Hmessage.
  destruct (getMessage (text p)) as [|c message] eqn:Htext; [done|].
  rewrite (notify_message _ _ _ _ _ Htext).
  cbn [classList notificationPopupStatus notificationPopupStatusIcon timers].
  split; [apply classList_add_token|].
  split; [apply classList_add_keeps, classList_add_token|].
  do 3 (split; [done|]).
  by rewrite fire_last.
Qed.

Lemma notify_shows_until_timer_witness :
  let getMessage := λ _ : Text, lit "No empty rules" in
  let p := showNotificationPopup WARNING_SYMBOL NO_EMPTY_TEXT red in
  let dom := {| classList := [lit "notification-popup"];
                notificationPopupStatus := [];
                notificationPopupStatusIcon := [];
                timers := [] |} in
  lit "visible" ∈ classList (notify getMessage p dom)
  ∧ colorClass (color p) ∈ classList (notify getMessage p dom)
  ∧ notificationPopupStatus (notify getMessage p dom) = getMessage (text p)
  ∧ notificationPopupStatusIcon (notify getMessage p dom)
    = symbolText (symbol p)
  ∧ timers (notify getMessage p dom) =
      timers dom
      ++ [(500 + 75 * Z.of_nat (length (getMessage (text p))),
           hideNotificationPopup)]
  ∧ fire (length (timers dom)) (notify getMessage p dom) = hide dom.
Proof. intros getMessage p dom. apply notify_shows_until_timer. done. Defined.

(** X26: a notification whose localized text is empty changes nothing: the
    popup is not shown and no timer is set, because the delay computed for
    the empty text is 0. *)
Theorem notify_empty_text getMessage p dom :
  getMessage (text p) = [] → notify getMessage p dom = dom.
Proof. intros Hmessage. unfold notify, show. by rewrite Hmessage. Qed.

Lemma notify_empty_text_witness :
  notify (λ _, []) (showNotificationPopup WARNING_SYMBOL NO_DUPS_TEXT red)
    {| classList := [lit "notification-popup"];
       notificationPopupStatus := [];
       notificationPopupStatusIcon := [];
       timers := [] |}
  = {| classList := [lit "notification-popup"];
       notificationPopupStatus := [];
       notificationPopupStatusIcon := [];
       timers := [] |}.
Proof. apply notify_empty_text. reflexivity. Defined.

(** X27: timers are not cancelled: when a second notification is raised
    while the timer of a first one is pending, the first timer hides the
    second notification, whose own timer stays pending. *)
Theorem earlier_timer_hides_later_notification getMessage p q dom :
  getMessage (text p) ≠ [] →
  getMessage (text q) ≠ [] →
  timers dom = [] →
  let dom' := fire 0 (notify getMessage q (notify getMessage p dom)) in
  classList dom' = [lit "notification-popup"]
  ∧ notificationPopupStatus dom' = []
  ∧ notificationPopupStatusIcon dom' = []
  ∧ timers dom' =
      [(calcTimeToReadString (getMessage (text q)), hideNotificationPopup)].
Proof.
  intros Hp Hq Hts dom'. subst dom'.
  destruct (getMessage (text p)) as [|c message] eqn:Htextp; [done|].
  destruct (getMessage (text q)) as [|c' message'] eqn:Htextq; [done|].
  rewrite (notify_message _ q _ _ _ Htextq).
  rewrite (notify_message _ p _ _ _ Htextp).
  cbn [classList notificationPopupStatus notificationPopupStatusIcon timers].
  rewrite Hts. done.
Qed.

Lemma earlier_timer_hides_later_notification_witness :
  let getMessage := λ _ : Text, lit "text" in
  let p := showNotificationPopup WARNING_SYMBOL NO_EMPTY_TEXT red in
  let q := showNotificationPopup SUCCESS_SYMBOL MISMATCHED_SUBDOMAINS_TEXT
             green in
  let dom := {| classList := [lit "notification-popup"];
                notificationPopupStatus := [];
                notificationPopupStatusIcon := [];
                timers := [] |} in
  let dom' := fire 0 (notify getMessage q (notify getMessage p dom)) in
  classList dom' = [lit "notification-popup"]
  ∧ notificationPopupStatus dom' = []
  ∧ notificationPopupStatusIcon dom' = []
  ∧ timers dom' =
      [(calcTimeToReadString (getMessage (text q)), hideNotificationPopup)].
Proof.
  intros getMessage p q dom.
  apply (earlier_timer_hides_later_notification getMessage p q dom); done.
Defined.

End NotificationMore.
